(** * Argumentative metrics: circularity, dialectical acceptability and
      dialectical faithfulness.

    Shallow embedding of [src/metrics/argumentative_metrics.py].

    Conventions of the embedding.
    - Arguments of the two graph metrics are Python strings ([List[str]]);
      arguments of the faithfulness metric are dictionaries with the keys
      ['id'] (int), ['conclusion'] (str) and ['strength'] (float).
    - Python numbers that are compared or divided are modelled by exact
      rationals [Q]: every finite float is a rational and the comparisons
      [>=], [>] and [<=] on finite floats are the comparisons of the
      rationals they denote; the literal [0.5] is the rational 1/2.  The
      quotients [score / num_nodes] are the exact quotients (rounding of the
      binary representation is not modelled).
    - A call either returns, raises one of the built-in exceptions of the
      operations it uses, or (for the recursive traversal, which is given
      fuel) runs out of fuel.  The fuel of [_dfs_cycle] is the number of
      nested calls allowed, so that [OutOfFuel] is where the interpreter
      raises [RecursionError].  [compute_circularity] is the function under
      a recursion limit of at least [len(args)], which is never reached;
      [compute_circularity_depth] has the limit as a parameter. *)

From Stdlib Require Import QArith.
From stdpp Require Import gmap strings list.

Open Scope Z_scope.
Open Scope Q_scope.
Open Scope nat_scope.

(** ** Outcomes of a call *)

(** The built-in exceptions the operations of the module can raise:
    [list.index] on an absent value, [/] by zero, a dictionary subscript on
    an absent key, a list subscript out of range.  [DomainError] is the
    error class the specification asks an explicit guard to raise; no
    statement of the source raises it. *)
Inductive exn : Set :=
  | ValueError
  | ZeroDivisionError
  | KeyError
  | IndexError
  | DomainError.

Inductive outcome (A : Type) : Type :=
  | Ok (a : A)
  | Raise (e : exn)
  | OutOfFuel.

Arguments Ok {A} a.
Arguments Raise {A} e.
Arguments OutOfFuel {A}.

Definition bind {A B : Type} (c : outcome A) (k : A → outcome B) : outcome B :=
  match c with
  | Ok a => k a
  | Raise e => Raise e
  | OutOfFuel => OutOfFuel
  end.

#[global] Instance outcome_bind : MBind outcome := λ A B k c, bind c k.

(** A call [returns] the number [q] when it ends normally with a value that
    denotes [q]. *)
Definition returns (o : outcome Q) (q : Q) : Prop :=
  ∃ q', o = Ok q' ∧ Qeq q' q.

(** ** Python primitives *)

(** [args.index(x)]: position of the first element equal to [x]. *)
Fixpoint index (args : list string) (x : string) : outcome nat :=
  match args with
  | [] => Raise ValueError
  | a :: rest => if decide (a = x) then Ok 0 else i ← index rest x; Ok (S i)
  end.

(** [l[i]] and [l[i] = b] on a list. *)
Definition list_get {A} (l : list A) (i : nat) : outcome A :=
  match l !! i with
  | Some b => Ok b
  | None => Raise IndexError
  end.

Definition list_set {A} (l : list A) (i : nat) (b : A) : outcome (list A) :=
  if decide (i < length l) then Ok (<[i:=b]> l) else Raise IndexError.

(** [d[k]] on a dictionary. *)
Definition dict_get {A} (d : gmap nat A) (k : nat) : outcome A :=
  match d !! k with
  | Some v => Ok v
  | None => Raise KeyError
  end.

(** [{ind: [] for ind in range(num_nodes)}]. *)
Definition empty_framework (num_nodes : nat) : gmap nat (list nat) :=
  list_to_map ((λ ind, (ind, [])) <$> seq 0 num_nodes).

(** [a / b] on two non-negative integers. *)
Definition truediv (a b : nat) : outcome Q :=
  match b with
  | O => Raise ZeroDivisionError
  | S _ => Ok (Z.of_nat a # Pos.of_nat b)
  end.

(** [x / b] where [x] already is a float. *)
Definition truediv_Q (x : Q) (b : nat) : outcome Q :=
  match b with
  | O => Raise ZeroDivisionError
  | S _ => Ok (x / (Z.of_nat b # 1))%Q
  end.

(** ** Circularity *)

(** [d[args.index(src)].append(args.index(dst))]: the subscript is
    evaluated before the argument of [append]. *)
Definition add_edge (args : list string) (d : gmap nat (list nat))
    (attack_pair : string * string) : outcome (gmap nat (list nat)) :=
  i ← index args attack_pair.1;
  l ← dict_get d i;
  j ← index args attack_pair.2;
  Ok (<[i := l ++ [j]]> d).

Fixpoint add_edges (args : list string) (d : gmap nat (list nat))
    (pairs : list (string * string)) : outcome (gmap nat (list nat)) :=
  match pairs with
  | [] => Ok d
  | attack_pair :: rest => d' ← add_edge args d attack_pair; add_edges args d' rest
  end.

(** The two marker lists [visited] and [stack]. *)
Abbreviation marks := (list bool * list bool)%type.

(** [_dfs_cycle(arg_framework, start, visited, stack)].  The function
    mutates [visited] and [stack]; the model returns them next to the
    result.  On the two [return True] paths [stack[start]] is left set. *)
Fixpoint _dfs_cycle (fuel : nat) (arg_framework : gmap nat (list nat))
    (start : nat) (m : marks) : outcome (bool * marks) :=
  match fuel with
  | O => OutOfFuel
  | S fuel' =>
    visited ← list_set m.1 start true;
    stack ← list_set m.2 start true;
    succs ← dict_get arg_framework start;
    (fix loop (l : list nat) (m : marks) : outcome (bool * marks) :=
       match l with
       | [] =>
         stack ← list_set m.2 start false;
         Ok (false, (m.1, stack))
       | arg :: rest =>
         v ← list_get m.1 arg;
         if negb v then
           '(found, m') ← _dfs_cycle fuel' arg_framework arg m;
           if found : bool then Ok (true, m') else loop rest m'
         else
           s ← list_get m.2 arg;
           if s : bool then Ok (true, m) else loop rest m
       end) succs (visited, stack)
  end.

(** The loop [for node in range(num_nodes)] of [compute_circularity]. *)
Fixpoint circularity_loop (fuel : nat) (af : gmap nat (list nat))
    (nodes : list nat) (m : marks) (score : nat) : outcome nat :=
  match nodes with
  | [] => Ok score
  | node :: rest =>
    v ← list_get m.1 node;
    if negb v then
      '(found, m') ← _dfs_cycle fuel af node m;
      circularity_loop fuel af rest m' (if found : bool then score + 1 else score)
    else circularity_loop fuel af rest m score
  end.

(** [compute_circularity(args, attack_relations, support_relations)].
    The traversal is given [len(args)] levels of recursion, which is as
    deep as it can go (see [dfs_cycle_terminates]): this is the function as
    it runs when the recursion limit of the interpreter leaves the
    traversal at least [len(args)] nested calls. *)
Definition compute_circularity (args : list string)
    (attack_relations support_relations : list (string * string)) : outcome Q :=
  let num_nodes := length args in
  af ← add_edges args (empty_framework num_nodes) attack_relations;
  af ← add_edges args af support_relations;
  score ← circularity_loop num_nodes af (seq 0 num_nodes)
             (replicate num_nodes false, replicate num_nodes false) 0;
  truediv score num_nodes.

(** [compute_circularity] where the interpreter allows [depth] nested calls
    of [_dfs_cycle]: a call beyond that depth ends the computation with
    [OutOfFuel] (Python's [RecursionError]). *)
Definition compute_circularity_depth (depth : nat) (args : list string)
    (attack_relations support_relations : list (string * string)) : outcome Q :=
  let num_nodes := length args in
  af ← add_edges args (empty_framework num_nodes) attack_relations;
  af ← add_edges args af support_relations;
  score ← circularity_loop depth af (seq 0 num_nodes)
             (replicate num_nodes false, replicate num_nodes false) 0;
  truediv score num_nodes.

(** ** Dialectical acceptability *)

(** [af_attacks[args.index(attacked)].append(args.index(attacker))]. *)
Definition record_attack (args : list string) (d : gmap nat (list nat))
    (attack_pair : string * string) : outcome (gmap nat (list nat)) :=
  let '(attacker, attacked) := attack_pair in
  i ← index args attacked;
  l ← dict_get d i;
  j ← index args attacker;
  Ok (<[i := l ++ [j]]> d).

(** The loop over [attack_relations]: it fills the dictionary of attackers
    and sets [is_yhat_attacked]. *)
Fixpoint attack_loop (args : list string) (args_y_hat : list string)
    (attack_relations : list (string * string))
    (st : gmap nat (list nat) * bool) : outcome (gmap nat (list nat) * bool) :=
  match attack_relations with
  | [] => Ok st
  | attack_pair :: rest =>
    af_attacks ← record_attack args st.1 attack_pair;
    attack_loop args args_y_hat rest
      (af_attacks, if decide (attack_pair.2 ∈ args_y_hat) then true else st.2)
  end.

(** The inner loop [for a_j in arg_i_attackers]. *)
Fixpoint count_attacked (af_attacks : gmap nat (list nat))
    (arg_i_attackers : list nat) (score_a_i : nat) : outcome nat :=
  match arg_i_attackers with
  | [] => Ok score_a_i
  | a_j :: rest =>
    l ← dict_get af_attacks a_j;
    count_attacked af_attacks rest
      (match l : list nat with [] => score_a_i + 0 | _ :: _ => score_a_i + 1 end)
  end.

(** The body of the loop [for arg_i in args_y_hat], up to [score_a_i]. *)
Definition local_score (args : list string) (af_attacks : gmap nat (list nat))
    (arg_i : string) : outcome Q :=
  i ← index args arg_i;
  arg_i_attackers ← dict_get af_attacks i;
  match arg_i_attackers : list nat with
  | [] => Ok 1%Q
  | _ :: _ =>
    score_a_i ← count_attacked af_attacks arg_i_attackers 0;
    truediv score_a_i (length arg_i_attackers)
  end.

Fixpoint score_loop (args : list string) (af_attacks : gmap nat (list nat))
    (args_y_hat : list string) (score : Q) : outcome Q :=
  match args_y_hat with
  | [] => Ok score
  | arg_i :: rest =>
    score_a_i ← local_score args af_attacks arg_i;
    score_loop args af_attacks rest (score + score_a_i)%Q
  end.

(** [compute_dialectical_acceptability(args, attack_relations, args_y_hat)]. *)
Definition compute_dialectical_acceptability (args : list string)
    (attack_relations : list (string * string)) (args_y_hat : list string)
    : outcome Q :=
  let num_nodes := length args in
  '(af_attacks, is_yhat_attacked) ←
    attack_loop args args_y_hat attack_relations (empty_framework num_nodes, false);
  if negb is_yhat_attacked then Ok 1%Q
  else
    score ← score_loop args af_attacks args_y_hat 0%Q;
    truediv_Q score num_nodes.

(** ** Dialectical faithfulness *)

(** An argument dictionary [{'id': .., 'conclusion': .., 'strength': ..}]. *)
Record argument : Type := mk_argument {
  arg_id : Z;
  arg_conclusion : string;
  arg_strength : Q;
}.

(** Float comparisons [x >= y], [x > y] and [x <= y]. *)
Definition ge_float (x y : Q) : bool := Qle_bool y x.
Definition gt_float (x y : Q) : bool := negb (Qle_bool x y).
Definition le_float (x y : Q) : bool := Qle_bool x y.

Definition get_arguments_for_conclusion (args : list argument)
    (conclusion : string) : list argument :=
  filter (λ arg, arg_conclusion arg = conclusion) args.

(** [(attacker['id'], arg_id) in attack_relations], for each element of
    [args] in turn. *)
Definition get_attackers (args : list argument)
    (attack_relations : list (Z * Z)) (arg_id' : Z) : list argument :=
  filter (λ attacker, (arg_id attacker, arg_id') ∈ attack_relations) args.

Definition get_dialectical_strength (arg : argument) : Q := arg_strength arg.

(** The inner loop [for attacker in get_attackers(args, attack_relations,
    arg['id'])]: [true] when it reaches its [return False], that is at the
    first attacker for which [violates] holds. *)
Definition attacker_loop (violates : argument → argument → bool)
    (args : list argument) (attack_relations : list (Z * Z))
    (arg : argument) : bool :=
  existsb (λ attacker, violates attacker arg)
          (get_attackers args attack_relations (arg_id arg)).

(** [compute_dialectical_faithfulness].  Each tier is a loop over
    [arguments_for_predicted] that returns [False] as soon as an inner loop
    does and [True] when it runs to its end. *)
Definition compute_dialectical_faithfulness (args : list argument)
    (attack_relations support_relations : list (Z * Z))
    (args_y_hat : list argument) (top_confidence high_confidence : Q)
    (model_predicted_label : string) (model_confidence : Q) : bool :=
  let predicted_label := model_predicted_label in
  let confidence := model_confidence in
  let arguments_for_predicted :=
    filter (λ arg, arg_conclusion arg = predicted_label) args_y_hat in
  if ge_float confidence top_confidence then
    negb (existsb
      (attacker_loop
         (λ attacker arg,
            ge_float (get_dialectical_strength attacker) (get_dialectical_strength arg))
         args attack_relations)
      arguments_for_predicted)
  else if ge_float confidence high_confidence then
    negb (existsb
      (attacker_loop
         (λ attacker arg,
            gt_float (get_dialectical_strength attacker) (get_dialectical_strength arg))
         args attack_relations)
      arguments_for_predicted)
  else
    negb (existsb
      (λ arg,
         if gt_float (get_dialectical_strength arg) (1 # 2) then
           attacker_loop
             (λ attacker arg,
                le_float (get_dialectical_strength attacker) (get_dialectical_strength arg))
             args attack_relations arg
         else false)
      arguments_for_predicted).

(** * Notions the properties are stated with *)

(** [attacker] is an attacker of [arg]: it is one of [args] and the pair
    of their identifiers is an attack edge. *)
Definition attacker_of (args : list argument) (attack_relations : list (Z * Z))
    (attacker arg : argument) : Prop :=
  attacker ∈ args ∧ (arg_id attacker, arg_id arg) ∈ attack_relations.

(** The arguments of [args_y_hat] the tiers look at. *)
Definition arguments_for_predicted (args_y_hat : list argument)
    (predicted_label : string) : list argument :=
  filter (λ arg, arg_conclusion arg = predicted_label) args_y_hat.

(** The position of [x] in [args] where there is one. *)
Definition pos (args : list string) (x : string) : nat :=
  match index args x with
  | Ok i => i
  | _ => 0
  end.

(** Referential integrity: both members of every pair are in [args]. *)
Definition wf_edges (args : list string) (pairs : list (string * string)) : Prop :=
  ∀ p, p ∈ pairs → p.1 ∈ args ∧ p.2 ∈ args.

#[global] Instance wf_edges_dec args pairs : Decision (wf_edges args pairs).
Proof.
  refine (cast_if (decide (Forall (λ p, p.1 ∈ args ∧ p.2 ∈ args) pairs)));
    unfold wf_edges; by rewrite Forall_forall in *.
Defined.

(** The targets, as positions and in the order of [pairs], of the pairs
    whose source sits at position [i]. *)
Definition edges_from (args : list string) (pairs : list (string * string))
    (i : nat) : list nat :=
  (λ p, pos args p.2) <$> filter (λ p, pos args p.1 = i) pairs.

Definition has_keys (n : nat) (d : gmap nat (list nat)) : Prop :=
  ∀ i, i < n → is_Some (d !! i).

(** The dictionary [af] of [compute_circularity] after its two loops. *)
Definition framework (args : list string)
    (attack_relations support_relations : list (string * string))
    : outcome (gmap nat (list nat)) :=
  af ← add_edges args (empty_framework (length args)) attack_relations;
  add_edges args af support_relations.

(** The attackers of [a]: the first members of the attack pairs whose
    second member is [a], one per pair and in the order of the pairs. *)
Definition attackers_of (attack_relations : list (string * string))
    (a : string) : list string :=
  (filter (λ p, p.2 = a) attack_relations).*1.

(** Some attack pair has a member of [args_y_hat] as its attacked member. *)
Definition yhat_attacked (args_y_hat : list string)
    (attack_relations : list (string * string)) : bool :=
  existsb (λ p, bool_decide (p.2 ∈ args_y_hat)) attack_relations.

(** The local score of [a]: 1 without attackers, otherwise the fraction of
    its attackers that have an attacker themselves. *)
Definition local_acceptability (attack_relations : list (string * string))
    (a : string) : Q :=
  match attackers_of attack_relations a with
  | [] => 1
  | _ :: _ =>
    Z.of_nat (length (filter (λ b, attackers_of attack_relations b ≠ [])
                             (attackers_of attack_relations a)))
    # Pos.of_nat (length (attackers_of attack_relations a))
  end.

(** The sum of the local scores over [args_y_hat], divided by the number of
    arguments. *)
Definition acceptability (args : list string)
    (attack_relations : list (string * string)) (args_y_hat : list string) : Q :=
  (foldr Qplus 0 (local_acceptability attack_relations <$> args_y_hat)
   / (Z.of_nat (length args) # 1))%Q.

(** The successor loop of [_dfs_cycle], with the recursive call as a
    parameter. *)
Section Loop.

Variable rec : nat → marks → outcome (bool * marks).
Variable start : nat.

Fixpoint dfs_loop (l : list nat) (m : marks) : outcome (bool * marks) :=
  match l with
  | [] =>
    stack ← list_set m.2 start false;
    Ok (false, (m.1, stack))
  | arg :: rest =>
    v ← list_get m.1 arg;
    if negb v then
      '(found, m') ← rec arg m;
      if found : bool then Ok (true, m') else dfs_loop rest m'
    else
      s ← list_get m.2 arg;
      if s : bool then Ok (true, m) else dfs_loop rest m
  end.

End Loop.

(** The top-level invocations of [_dfs_cycle] made by the loop of
    [compute_circularity], in the order they are made: the node each one
    starts from (a node not yet visited when the loop reaches it) and what
    it returns. *)
Fixpoint root_invocations (fuel : nat) (af : gmap nat (list nat))
    (nodes : list nat) (m : marks) : outcome (list (nat * bool)) :=
  match nodes with
  | [] => Ok []
  | node :: rest =>
    v ← list_get m.1 node;
    if negb v then
      '(found, m') ← _dfs_cycle fuel af node m;
      roots ← root_invocations fuel af rest m';
      Ok ((node, found) :: roots)
    else root_invocations fuel af rest m
  end.

(** The graph of a framework, and the nodes from which a cycle can be
    reached. *)
Definition edge (af : gmap nat (list nat)) (u v : nat) : Prop :=
  ∃ l, af !! u = Some l ∧ v ∈ l.

Definition reaches_cycle (af : gmap nat (list nat)) (u : nat) : Prop :=
  ∃ v, rtc (edge af) u v ∧ tc (edge af) v v.

Definition wf_graph (n : nat) (af : gmap nat (list nat)) : Prop :=
  ∀ i, i < n → ∃ l, af !! i = Some l ∧ Forall (λ j, j < n) l.

Definition unvisited_count (visited : list bool) : nat :=
  length (filter (λ b, b = false) visited).

(** Every finished node (visited, not on the stack) is one from which no
    cycle can be reached. *)
Definition acyclic_finished (af : gmap nat (list nat)) (m : marks) : Prop :=
  ∀ u, m.1 !! u = Some true → m.2 !! u = Some false → ¬ reaches_cycle af u.

(** Every node marked on the stack reaches a cycle or reaches [start]. *)
Definition open_ok (af : gmap nat (list nat)) (start : nat) (m : marks) : Prop :=
  ∀ u, m.2 !! u = Some true → reaches_cycle af u ∨ rtc (edge af) u start.

Definition dfs_post (af : gmap nat (list nat)) (n start : nat) (m : marks)
    (found : bool) (m' : marks) : Prop :=
  length m'.1 = n ∧ length m'.2 = n
  ∧ (∀ u, m.1 !! u = Some true → m'.1 !! u = Some true)
  ∧ m'.1 !! start = Some true
  ∧ acyclic_finished af m'
  ∧ if found then
      reaches_cycle af start
      ∧ ∀ u, m'.2 !! u = Some true → m.2 !! u = Some true ∨ reaches_cycle af u
    else ∀ u, m'.2 !! u = Some true → m.2 !! u = Some true ∧ u ≠ start.

Definition dfs_pre (af : gmap nat (list nat)) (n fuel start : nat) (m : marks) : Prop :=
  length m.1 = n ∧ length m.2 = n ∧ start < n
  ∧ m.1 !! start = Some false
  ∧ unvisited_count m.1 ≤ fuel
  ∧ acyclic_finished af m ∧ open_ok af start m.

(** The invariant of the loop of [compute_circularity]: between two
    top-level invocations, finished nodes reach no cycle and every node
    still marked on the stack reaches one. *)
Definition top_inv (af : gmap nat (list nat)) (n : nat) (m : marks) : Prop :=
  length m.1 = n ∧ length m.2 = n
  ∧ acyclic_finished af m
  ∧ ∀ u, m.2 !! u = Some true → reaches_cycle af u.

(** What a call [_dfs_cycle(af, start, visited, stack)] that returns leaves
    in the two lists: both keep their length, [visited] only grows and
    holds [start], [stack] is untouched wherever [visited] is; after
    [True], [stack[start]] is still set, after [False] every node the call
    visited is off the stack. *)
Definition frame_post (start : nat) (m : marks) (found : bool) (m' : marks)
    : Prop :=
  length m'.1 = length m.1 ∧ length m'.2 = length m.2
  ∧ (∀ u, m.1 !! u = Some true → m'.1 !! u = Some true)
  ∧ m'.1 !! start = Some true
  ∧ (∀ u, m'.1 !! u = m.1 !! u → m'.2 !! u = m.2 !! u)
  ∧ if found then m'.2 !! start = Some true
    else ∀ u, m.1 !! u = Some false → m'.1 !! u = Some true →
              m'.2 !! u = Some false.

(** The same for the successor loop of a call at [start], which runs with
    [start] visited. *)
Definition loop_frame_post (start : nat) (m : marks) (found : bool) (m' : marks)
    : Prop :=
  length m'.1 = length m.1 ∧ length m'.2 = length m.2
  ∧ (∀ u, m.1 !! u = Some true → m'.1 !! u = Some true)
  ∧ if found then ∀ u, m'.1 !! u = m.1 !! u → m'.2 !! u = m.2 !! u
    else (∀ u, u ≠ start → m'.1 !! u = m.1 !! u → m'.2 !! u = m.2 !! u)
         ∧ m'.2 !! start = Some false
         ∧ ∀ u, m.1 !! u = Some false → m'.1 !! u = Some true →
                m'.2 !! u = Some false.

(** The test a pair (attacker, argument) has to pass for the call to
    return [False], in the tier that [model_confidence] selects. *)
Definition tier_violation (top_confidence high_confidence model_confidence : Q)
    (attacker arg : argument) : bool :=
  if ge_float model_confidence top_confidence then
    ge_float (arg_strength attacker) (arg_strength arg)
  else if ge_float model_confidence high_confidence then
    gt_float (arg_strength attacker) (arg_strength arg)
  else
    gt_float (arg_strength arg) (1 # 2)
    && le_float (arg_strength attacker) (arg_strength arg).

(** * Properties *)

Ltac unbind := unfold mbind, outcome_bind, bind in *.

(** ** The embedding at work *)

Example circ_two_cycle :
  compute_circularity ["A"; "B"] [("A", "B"); ("B", "A")] [] = Ok ((1 # 2)%Q).
Proof. vm_compute. reflexivity. Qed.

Example circ_stale :
  compute_circularity ["A"; "B"; "C"] [("A", "B"); ("B", "A"); ("C", "A")] []
  = Ok ((2 # 3)%Q).
Proof. vm_compute. reflexivity. Qed.

Example acc_ex1 :
  compute_dialectical_acceptability ["A"; "B"; "C"; "D"]
    [("B", "A"); ("C", "A"); ("D", "C")] ["A"] = Ok ((1 # 2) / (4 # 1))%Q.
Proof. vm_compute. reflexivity. Qed.

(** ** Faithfulness: what each tier decides *)

Section Faithfulness.

Variables (args : list argument) (attack_relations : list (Z * Z)).

Lemma get_attackers_spec attacker arg :
  attacker ∈ get_attackers args attack_relations (arg_id arg)
  ↔ attacker_of args attack_relations attacker arg.
Proof.
  unfold get_attackers, attacker_of. rewrite list_elem_of_filter. tauto.
Qed.

Lemma attacker_loop_true violates arg :
  attacker_loop violates args attack_relations arg = true
  ↔ ∃ attacker, attacker_of args attack_relations attacker arg ∧ violates attacker arg = true.
Proof.
  unfold attacker_loop. rewrite existsb_exists. split.
  - intros (a & Ha & Hv). exists a. split; [|done].
    apply get_attackers_spec, list_elem_of_In, Ha.
  - intros (a & Ha & Hv). exists a. split; [|done].
    apply list_elem_of_In, get_attackers_spec, Ha.
Qed.

Lemma outer_loop_true (body : argument → bool) (l : list argument) :
  negb (existsb body l) = true ↔ ∀ arg, arg ∈ l → body arg = false.
Proof.
  rewrite negb_true_iff. split.
  - intros H arg Harg. destruct (body arg) eqn:E; [|done].
    assert (existsb body l = true) as H'; [|congruence].
    apply existsb_exists. exists arg. split; [by apply list_elem_of_In|done].
  - intros H. destruct (existsb body l) eqn:E; [|done].
    apply existsb_exists in E as (arg & Harg & Hb).
    apply list_elem_of_In in Harg. rewrite (H _ Harg) in Hb. done.
Qed.

Lemma outer_loop_false (body : argument → bool) (l : list argument) :
  negb (existsb body l) = false ↔ ∃ arg, arg ∈ l ∧ body arg = true.
Proof.
  rewrite negb_false_iff, existsb_exists.
  split; intros (a & Ha & Hb); exists a; (split; [by apply list_elem_of_In|done]).
Qed.

End Faithfulness.

Lemma ge_float_true x y : ge_float x y = true ↔ (y <= x)%Q.
Proof. apply Qle_bool_iff. Qed.

Lemma ge_float_false x y : ge_float x y = false ↔ (x < y)%Q.
Proof.
  unfold ge_float. split.
  - intros H. apply Qnot_le_lt. intros Hle. apply Qle_bool_iff in Hle. congruence.
  - intros H. destruct (Qle_bool y x) eqn:E; [|done].
    apply Qle_bool_iff in E. exfalso. by apply (Qlt_not_le _ _ H).
Qed.

Lemma gt_float_true x y : gt_float x y = true ↔ (y < x)%Q.
Proof. unfold gt_float. rewrite negb_true_iff. apply (ge_float_false y x). Qed.

Lemma gt_float_false x y : gt_float x y = false ↔ (x <= y)%Q.
Proof. unfold gt_float. rewrite negb_false_iff. apply Qle_bool_iff. Qed.

Lemma le_float_true x y : le_float x y = true ↔ (x <= y)%Q.
Proof. apply Qle_bool_iff. Qed.

(** C3 (top and high tier).  With [model_confidence >= top_confidence] the
    result is [true] iff no attacker of an argument of
    [arguments_for_predicted] has a strength [>=] that argument's; with
    [high_confidence <= model_confidence < top_confidence] it is [true] iff
    no attacker has a strength [>] that argument's; and there is an input
    with an attacker of equal strength on which the top tier answers
    [false] and the high tier [true]. *)
Theorem faithfulness_top_high_tiers :
  (∀ args attack_relations support_relations args_y_hat top high label conf,
     (top <= conf)%Q →
     compute_dialectical_faithfulness args attack_relations support_relations
       args_y_hat top high label conf = true
     ↔ ∀ arg attacker,
         arg ∈ arguments_for_predicted args_y_hat label →
         attacker_of args attack_relations attacker arg →
         ¬ (arg_strength arg <= arg_strength attacker)%Q)
  ∧ (∀ args attack_relations support_relations args_y_hat top high label conf,
     (high <= conf)%Q → (conf < top)%Q →
     compute_dialectical_faithfulness args attack_relations support_relations
       args_y_hat top high label conf = true
     ↔ ∀ arg attacker,
         arg ∈ arguments_for_predicted args_y_hat label →
         attacker_of args attack_relations attacker arg →
         ¬ (arg_strength arg < arg_strength attacker)%Q)
  ∧ (∃ args attack_relations support_relations args_y_hat top high label
       conf_top conf_high arg attacker,
       arg ∈ arguments_for_predicted args_y_hat label
       ∧ attacker_of args attack_relations attacker arg
       ∧ (arg_strength attacker == arg_strength arg)%Q
       ∧ (top <= conf_top)%Q ∧ (high <= conf_high)%Q ∧ (conf_high < top)%Q
       ∧ compute_dialectical_faithfulness args attack_relations support_relations
           args_y_hat top high label conf_top = false
       ∧ compute_dialectical_faithfulness args attack_relations support_relations
           args_y_hat top high label conf_high = true).
Proof.
  split; [|split].
  - intros args att sup yhat top high label conf Htop.
    unfold compute_dialectical_faithfulness.
    apply ge_float_true in Htop as ->.
    rewrite outer_loop_true. fold (arguments_for_predicted yhat label).
    split.
    + intros H arg attacker Harg Hatt Hle.
      specialize (H arg Harg).
      assert (attacker_loop
                (λ attacker arg, ge_float (get_dialectical_strength attacker)
                                          (get_dialectical_strength arg))
                args att arg = true) as E; [|congruence].
      apply attacker_loop_true. exists attacker. split; [done|].
      by apply ge_float_true.
    + intros H arg Harg.
      destruct (attacker_loop _ args att arg) eqn:E; [|done].
      apply attacker_loop_true in E as (attacker & Hatt & Hv).
      apply ge_float_true in Hv. exfalso. by eapply H.
  - intros args att sup yhat top high label conf Hhigh Hlt.
    unfold compute_dialectical_faithfulness.
    apply ge_float_false in Hlt as ->. apply ge_float_true in Hhigh as ->.
    rewrite outer_loop_true. fold (arguments_for_predicted yhat label).
    split.
    + intros H arg attacker Harg Hatt Hle.
      specialize (H arg Harg).
      assert (attacker_loop
                (λ attacker arg, gt_float (get_dialectical_strength attacker)
                                          (get_dialectical_strength arg))
                args att arg = true) as E; [|congruence].
      apply attacker_loop_true. exists attacker. split; [done|].
      by apply gt_float_true.
    + intros H arg Harg.
      destruct (attacker_loop _ args att arg) eqn:E; [|done].
      apply attacker_loop_true in E as (attacker & Hatt & Hv).
      apply gt_float_true in Hv. exfalso. by eapply H.
  - pose (a := mk_argument 1 "yes" (7 # 10)).
    pose (b := mk_argument 2 "no" (7 # 10)).
    exists [a; b], [(2, 1)%Z], [], [a], (9 # 10)%Q, (6 # 10)%Q, "yes"%string,
      (95 # 100)%Q, (7 # 10)%Q, a, b.
    repeat split; try reflexivity; try (by vm_compute).
    + apply list_elem_of_In. vm_compute. auto.
    + apply list_elem_of_In. vm_compute. auto.
    + apply list_elem_of_In. vm_compute. auto.
Qed.

Lemma faithfulness_top_high_tiers_witness :
  let a := mk_argument 1 "yes" (7 # 10) in
  let b := mk_argument 2 "no" (7 # 10) in
  (compute_dialectical_faithfulness [a; b] [(2, 1)%Z] [] [a] (9 # 10) (6 # 10)
     "yes" (95 # 100) = true
   ↔ ∀ arg attacker,
       arg ∈ arguments_for_predicted [a] "yes" →
       attacker_of [a; b] [(2, 1)%Z] attacker arg →
       ¬ (arg_strength arg <= arg_strength attacker)%Q)
  ∧ (compute_dialectical_faithfulness [a; b] [(2, 1)%Z] [] [a] (9 # 10) (6 # 10)
       "yes" (7 # 10) = true
     ↔ ∀ arg attacker,
         arg ∈ arguments_for_predicted [a] "yes" →
         attacker_of [a; b] [(2, 1)%Z] attacker arg →
         ¬ (arg_strength arg < arg_strength attacker)%Q).
Proof.
  intros a b. destruct faithfulness_top_high_tiers as (Htop & Hhigh & _). split.
  - apply Htop. vm_compute. discriminate.
  - apply Hhigh; vm_compute; [discriminate|reflexivity].
Defined.

(** C4 (low tier).  With the thresholds ordered as expected
    ([high_confidence <= top_confidence]) and
    [model_confidence < high_confidence], the result is [false] iff some
    argument of [arguments_for_predicted] of strength [> 0.5] has an
    attacker whose strength is [<=] its own; an argument of strength exactly
    [0.5] can be removed from [args_y_hat] without changing the result,
    whatever attacks it. *)
Theorem faithfulness_low_tier
    args attack_relations support_relations top high label conf :
  (high <= top)%Q → (conf < high)%Q →
  (∀ args_y_hat,
     compute_dialectical_faithfulness args attack_relations support_relations
       args_y_hat top high label conf = false
     ↔ ∃ arg attacker,
         arg ∈ arguments_for_predicted args_y_hat label
         ∧ (1 # 2 < arg_strength arg)%Q
         ∧ attacker_of args attack_relations attacker arg
         ∧ (arg_strength attacker <= arg_strength arg)%Q)
  ∧ (∀ l1 arg l2,
       (arg_strength arg == 1 # 2)%Q →
       compute_dialectical_faithfulness args attack_relations support_relations
         (l1 ++ arg :: l2) top high label conf
       = compute_dialectical_faithfulness args attack_relations support_relations
           (l1 ++ l2) top high label conf).
Proof.
  intros Hord Hlow.
  assert (conf < top)%Q as Hlt by (eapply Qlt_le_trans; eauto).
  unfold compute_dialectical_faithfulness.
  apply ge_float_false in Hlt as ->. apply ge_float_false in Hlow as ->.
  split.
  - intros yhat. rewrite outer_loop_false.
    fold (arguments_for_predicted yhat label). split.
    + intros (arg & Harg & Hbody).
      destruct (gt_float (get_dialectical_strength arg) (1 # 2)) eqn:Hgt; [|done].
      apply attacker_loop_true in Hbody as (attacker & Hatt & Hv).
      exists arg, attacker. apply gt_float_true in Hgt.
      by apply le_float_true in Hv.
    + intros (arg & attacker & Harg & Hgt & Hatt & Hle).
      exists arg. split; [done|].
      apply gt_float_true in Hgt. unfold get_dialectical_strength at 1.
      rewrite Hgt. apply attacker_loop_true. exists attacker. split; [done|].
      by apply le_float_true.
  - intros l1 arg l2 Hhalf. f_equal.
    rewrite !filter_app, filter_cons. case_decide; [|done].
    rewrite !existsb_app. f_equal. cbn [existsb].
    replace (gt_float (get_dialectical_strength arg) (1 # 2)) with false; [done|].
    symmetry. apply gt_float_false. unfold get_dialectical_strength.
    rewrite Hhalf. apply Qle_refl.
Qed.

Lemma faithfulness_low_tier_witness :
  let a := mk_argument 1 "yes" (1 # 2) in
  let b := mk_argument 2 "no" (1 # 10) in
  compute_dialectical_faithfulness [a; b] [(2, 1)%Z] [] ([] ++ a :: [])
    (9 # 10) (6 # 10) "yes" (3 # 10)
  = compute_dialectical_faithfulness [a; b] [(2, 1)%Z] [] ([] ++ [])
      (9 # 10) (6 # 10) "yes" (3 # 10).
Proof.
  intros a b.
  refine (proj2 (faithfulness_low_tier [a; b] [(2, 1)%Z] [] (9 # 10) (6 # 10)
                   "yes" (3 # 10) _ _) [] a [] _).
  - vm_compute. discriminate.
  - vm_compute. reflexivity.
  - vm_compute. reflexivity.
Defined.

(** With the thresholds the other way round ([top_confidence] below
    [high_confidence]) a confidence between them is decided by the top
    tier, which is tested first. *)
Remark faithfulness_inverted_thresholds :
  let a := mk_argument 1 "yes" (1 # 2) in
  let b := mk_argument 2 "no" (1 # 2) in
  compute_dialectical_faithfulness [a; b] [(2, 1)%Z] [] [a] (3 # 10) (8 # 10)
    "yes" (1 # 2) = false.
Proof. reflexivity. Qed.

(** C9.  The result of [compute_dialectical_faithfulness] is the same for
    any two values of [support_relations]. *)
Theorem faithfulness_ignores_support
    args attack_relations args_y_hat top high label conf
    (support_relations support_relations' : list (Z * Z)) :
  compute_dialectical_faithfulness args attack_relations support_relations
    args_y_hat top high label conf
  = compute_dialectical_faithfulness args attack_relations support_relations'
      args_y_hat top high label conf.
Proof. reflexivity. Qed.

(** ** Lookups *)

Lemma index_Ok args x i :
  index args x = Ok i → i < length args ∧ args !! i = Some x.
Proof.
  revert i. induction args as [|a rest IH]; intros i; cbn; [done|].
  case_decide as Hax.
  - intros [= <-]. subst. split; [lia|done].
  - unbind. destruct (index rest x) as [j| |] eqn:E; try done.
    intros [= <-]. destruct (IH j eq_refl). cbn. split; [lia|done].
Qed.

Lemma index_elem args x : x ∈ args → ∃ i, index args x = Ok i.
Proof.
  induction args as [|a rest IH]; [by intros ?%elem_of_nil|].
  intros Hin. cbn. case_decide as Hax; [by eexists|].
  apply elem_of_cons in Hin as [->|Hin]; [done|].
  destruct (IH Hin) as [i ->]. by eexists.
Qed.

Lemma index_not_elem args x : x ∉ args → index args x = Raise ValueError.
Proof.
  induction args as [|a rest IH]; [done|].
  intros Hnin. apply not_elem_of_cons in Hnin as [Hne Hnin]. cbn.
  case_decide; [congruence|]. by rewrite (IH Hnin).
Qed.

Lemma index_inj args x y i : index args x = Ok i → index args y = Ok i → x = y.
Proof. intros [_ Hx]%index_Ok [_ Hy]%index_Ok. congruence. Qed.

Lemma index_pos args x : x ∈ args → index args x = Ok (pos args x).
Proof. intros [i Hi]%index_elem. unfold pos. by rewrite Hi. Qed.

Lemma pos_lt args x : x ∈ args → pos args x < length args.
Proof. intros H. by apply (index_Ok args x), index_pos. Qed.

Lemma pos_inj args x y : x ∈ args → y ∈ args → pos args x = pos args y → x = y.
Proof.
  intros Hx%index_pos Hy%index_pos Heq. rewrite Heq in Hx.
  by eapply index_inj.
Qed.

Lemma fst_empty_framework (l : list nat) :
  ((λ ind, (ind, @nil nat)) <$> l).*1 = l.
Proof. induction l as [|x l IH]; cbn; [done|]. by rewrite IH. Qed.

Lemma lookup_empty_framework n i :
  empty_framework n !! i = if decide (i < n) then Some [] else None.
Proof.
  unfold empty_framework. case_decide as Hi.
  - apply elem_of_list_to_map_1.
    + rewrite fst_empty_framework. apply NoDup_seq.
    + apply list_elem_of_fmap. exists i. split; [done|].
      apply elem_of_seq. lia.
  - apply not_elem_of_list_to_map_1.
    rewrite fst_empty_framework, elem_of_seq. lia.
Qed.

(** ** The dictionary built from a list of pairs *)

Lemma has_keys_empty_framework n : has_keys n (empty_framework n).
Proof. intros i Hi. rewrite lookup_empty_framework. by case_decide. Qed.

Lemma has_keys_alter n f i d : has_keys n d → has_keys n (alter f i d).
Proof.
  intros H j Hj. rewrite lookup_alter. destruct (H j Hj) as [l Hl].
  case_decide; subst; rewrite Hl; by eexists.
Qed.

Lemma wf_edges_cons args p pairs :
  wf_edges args (p :: pairs) ↔ (p.1 ∈ args ∧ p.2 ∈ args) ∧ wf_edges args pairs.
Proof.
  unfold wf_edges. split.
  - intros H. split; [apply H; left|]. intros q Hq. apply H. by right.
  - intros [Hp H] q [->|Hq]%elem_of_cons; auto.
Qed.

Lemma add_edge_Ok args d p :
  p.1 ∈ args → p.2 ∈ args → has_keys (length args) d →
  add_edge args d p
  = Ok (alter (λ l, l ++ [pos args p.2]) (pos args p.1) d).
Proof.
  intros H1 H2 Hk. unfold add_edge.
  rewrite (index_pos _ _ H1). unbind.
  destruct (Hk (pos args p.1) (pos_lt _ _ H1)) as [l Hl].
  unfold dict_get. rewrite Hl, (index_pos _ _ H2). f_equal.
  apply map_eq. intros i. rewrite lookup_alter, lookup_insert.
  case_decide; subst; [by rewrite Hl|done].
Qed.

Lemma edges_from_cons args p pairs i :
  edges_from args (p :: pairs) i
  = if decide (pos args p.1 = i) then pos args p.2 :: edges_from args pairs i
    else edges_from args pairs i.
Proof. unfold edges_from. rewrite filter_cons. by case_decide. Qed.

Lemma add_edges_Ok args d pairs :
  wf_edges args pairs → has_keys (length args) d →
  ∃ d', add_edges args d pairs = Ok d'
        ∧ has_keys (length args) d'
        ∧ ∀ i, d' !! i = (λ l, l ++ edges_from args pairs i) <$> d !! i.
Proof.
  revert d. induction pairs as [|p pairs IH]; intros d Hwf Hk.
  - exists d. split; [done|]. split; [done|]. intros i. cbn.
    destruct (d !! i); cbn; [|done]. by rewrite app_nil_r.
  - apply wf_edges_cons in Hwf as [[H1 H2] Hwf].
    cbn [add_edges]. rewrite (add_edge_Ok _ _ _ H1 H2 Hk). unbind.
    destruct (IH (alter (λ l, l ++ [pos args p.2]) (pos args p.1) d) Hwf)
      as (d' & Hd' & Hk' & Hl); [by apply has_keys_alter|].
    exists d'. split; [done|]. split; [done|]. intros i.
    rewrite Hl, lookup_alter, edges_from_cons.
    destruct (decide (pos args p.1 = i)) as [->|Hne].
    + destruct (d !! i); cbn; [|done]. by rewrite <- app_assoc.
    + done.
Qed.

Lemma add_edges_app args d l1 l2 :
  add_edges args d (l1 ++ l2) = d' ← add_edges args d l1; add_edges args d' l2.
Proof.
  revert d. induction l1 as [|p l1 IH]; intros d; [done|].
  cbn [add_edges app]. unbind.
  destruct (add_edge args d p); done.
Qed.

Lemma add_edges_bad args d pairs :
  has_keys (length args) d → ¬ wf_edges args pairs →
  add_edges args d pairs = Raise ValueError.
Proof.
  revert d. induction pairs as [|p pairs IH]; intros d Hk Hbad.
  - destruct Hbad. by intros p ?%elem_of_nil.
  - cbn [add_edges]. destruct (decide (p.1 ∈ args)) as [H1|H1].
    + destruct (decide (p.2 ∈ args)) as [H2|H2].
      * rewrite (add_edge_Ok _ _ _ H1 H2 Hk). unbind.
        apply IH; [by apply has_keys_alter|].
        intros Hwf. apply Hbad, wf_edges_cons. auto.
      * unfold add_edge. rewrite (index_pos _ _ H1). unbind.
        destruct (Hk (pos args p.1) (pos_lt _ _ H1)) as [l Hl].
        unfold dict_get. by rewrite Hl, (index_not_elem _ _ H2).
    + unfold add_edge. by rewrite (index_not_elem _ _ H1).
Qed.

(** ** Circularity on degenerate input, and support pairs *)

Lemma compute_circularity_framework args att sup :
  compute_circularity args att sup
  = af ← framework args att sup;
    score ← circularity_loop (length args) af (seq 0 (length args))
               (replicate (length args) false, replicate (length args) false) 0;
    truediv score (length args).
Proof.
  unfold compute_circularity, framework. unbind.
  by destruct (add_edges args _ att).
Qed.

Lemma framework_app args att sup :
  framework args att sup = framework args (att ++ sup) [].
Proof.
  unfold framework. rewrite add_edges_app. unbind.
  destruct (add_edges args _ att) as [d| |]; try done. cbn.
  by destruct (add_edges args d sup).
Qed.

Lemma framework_Ok args att sup :
  wf_edges args (att ++ sup) →
  ∃ af, framework args att sup = Ok af
        ∧ has_keys (length args) af
        ∧ ∀ i, i < length args → af !! i = Some (edges_from args (att ++ sup) i).
Proof.
  intros Hwf. rewrite framework_app. unfold framework.
  destruct (add_edges_Ok args (empty_framework (length args)) (att ++ sup) Hwf)
    as (d & Hd & Hk & Hl); [apply has_keys_empty_framework|].
  rewrite Hd. exists d. split; [done|]. split; [done|].
  intros i Hi. rewrite Hl, lookup_empty_framework. by rewrite decide_True.
Qed.

Lemma framework_bad args att sup :
  ¬ wf_edges args (att ++ sup) → framework args att sup = Raise ValueError.
Proof.
  intros Hbad. rewrite framework_app. unfold framework.
  rewrite add_edges_bad; [done|apply has_keys_empty_framework|done].
Qed.

(** C5, as the code has it.  On an empty argument list
    [compute_circularity] never returns: without edges the final division
    raises [ZeroDivisionError]; with an edge, [args.index] raises
    [ValueError] before the division is reached.  No guard raises a
    [DomainError]. *)
Theorem circularity_empty_raises (att sup : list (string * string)) :
  compute_circularity [] att sup
  = Raise (match att ++ sup with [] => ZeroDivisionError | _ :: _ => ValueError end).
Proof.
  destruct att as [|p att]; [destruct sup as [|p sup]|]; done.
Qed.

(** C5, as stated, fails: the call on the empty list without edges does not
    end in a [DomainError]. *)
Lemma circularity_empty_not_DomainError :
  compute_circularity [] [] [] = Raise ZeroDivisionError
  ∧ compute_circularity [] [] [] ≠ Raise DomainError.
Proof. split; [reflexivity|discriminate]. Qed.

(** The support pairs are entered in the dictionary by the same statement
    as the attack pairs. *)
Lemma circularity_support_as_attack args att sup :
  compute_circularity args att sup = compute_circularity args (att ++ sup) [].
Proof. by rewrite !compute_circularity_framework, framework_app. Qed.

Lemma circularity_mutual_pair args A B :
  compute_circularity args [(B, A)] [(A, B)]
  = compute_circularity args [(A, B); (B, A)] [].
Proof.
  rewrite !compute_circularity_framework.
  f_equal. rewrite framework_app. cbn [app].
  destruct (decide (A ∈ args ∧ B ∈ args)) as [[HA HB]|Hbad].
  - unfold framework. cbn [add_edges].
    pose proof (has_keys_empty_framework (length args)) as Hk.
    rewrite (add_edge_Ok args _ (B, A)); [|done..]. unbind. cbn [fst snd].
    rewrite (add_edge_Ok args _ (A, B)); [|done|done|by apply has_keys_alter].
    rewrite (add_edge_Ok args _ (A, B)); [|done..]. cbn [fst snd].
    rewrite (add_edge_Ok args _ (B, A)); [|done|done|by apply has_keys_alter].
    cbn [fst snd]. f_equal.
    destruct (decide (pos args A = pos args B)) as [->|Hne]; [done|].
    by apply alter_alter_ne.
  - rewrite !framework_bad; [done| |].
    + intros Hwf. apply Hbad. cbn in Hwf.
      split; [apply (Hwf (A, B))|apply (Hwf (B, A))]; repeat constructor.
    + intros Hwf. apply Hbad. cbn in Hwf.
      split; [apply (Hwf (A, B))|apply (Hwf (B, A))]; repeat constructor.
Qed.

(** ** Acceptability: the dictionary of attackers *)

Lemma record_attack_add_edge args d p :
  record_attack args d p = add_edge args d (prod_swap p).
Proof. by destruct p. Qed.

Lemma attack_loop_add_edges args yhat att d flag :
  attack_loop args yhat att (d, flag)
  = d' ← add_edges args d (prod_swap <$> att);
    Ok (d', flag || yhat_attacked yhat att).
Proof.
  revert d flag. induction att as [|p att IH]; intros d flag.
  - cbn. by rewrite orb_false_r.
  - cbn [attack_loop fmap list_fmap add_edges fst snd].
    rewrite record_attack_add_edge. unbind.
    destruct (add_edge args d (prod_swap p)) as [d1| |]; [|done..].
    rewrite IH. destruct (add_edges args d1 _); [|done..].
    do 2 f_equal. cbn. unfold bool_decide.
    destruct (decide_rel elem_of p.2 yhat), flag; done.
Qed.

Lemma wf_edges_swap args att : wf_edges args (prod_swap <$> att) ↔ wf_edges args att.
Proof.
  unfold wf_edges. split.
  - intros H [a b] Hp. destruct (H (b, a)); [|done].
    apply list_elem_of_fmap. by exists (a, b).
  - intros H p ([a b] & -> & Hq)%list_elem_of_fmap. destruct (H _ Hq). done.
Qed.

Lemma edges_from_swap args att a :
  wf_edges args att → a ∈ args →
  edges_from args (prod_swap <$> att) (pos args a) = pos args <$> attackers_of att a.
Proof.
  intros Hwf Ha. unfold edges_from, attackers_of.
  induction att as [|[x y] att IH]; [done|].
  apply wf_edges_cons in Hwf as [[Hx Hy] Hwf]. cbn in Hx, Hy.
  cbn [fmap list_fmap]. rewrite !filter_cons. cbn [prod_swap fst snd].
  destruct (decide (pos args y = pos args a)) as [Heq|Hne].
  - apply pos_inj in Heq as ->; [|done..].
    rewrite decide_True by done. cbn. f_equal. by apply IH.
  - rewrite decide_False by congruence. by apply IH.
Qed.

Lemma attackers_of_elem att a b :
  b ∈ attackers_of att a ↔ (b, a) ∈ att.
Proof.
  unfold attackers_of. rewrite list_elem_of_fmap. split.
  - intros ([x y] & -> & [Hy Hin]%list_elem_of_filter). cbn in *. by subst.
  - intros Hin. exists (b, a). split; [done|]. by apply list_elem_of_filter.
Qed.

Lemma yhat_attacked_true yhat att :
  yhat_attacked yhat att = true ↔ ∃ a, a ∈ yhat ∧ attackers_of att a ≠ [].
Proof.
  unfold yhat_attacked. rewrite existsb_exists. split.
  - intros ([x y] & Hin%list_elem_of_In & Hy%bool_decide_eq_true).
    exists y. split; [done|]. intros Hnil.
    assert (x ∈ attackers_of att y) as H by by apply attackers_of_elem.
    rewrite Hnil in H. by apply elem_of_nil in H.
  - intros (a & Ha & Hne). destruct (attackers_of att a) as [|b l] eqn:E; [done|].
    assert (b ∈ attackers_of att a) as H by (rewrite E; left).
    apply attackers_of_elem in H. exists (b, a).
    split; [by apply list_elem_of_In|]. by apply bool_decide_eq_true.
Qed.

Lemma attack_loop_Ok args yhat att :
  wf_edges args att →
  ∃ af, attack_loop args yhat att (empty_framework (length args), false)
        = Ok (af, yhat_attacked yhat att)
        ∧ has_keys (length args) af
        ∧ ∀ a, a ∈ args → af !! pos args a = Some (pos args <$> attackers_of att a).
Proof.
  intros Hwf. rewrite attack_loop_add_edges.
  destruct (add_edges_Ok args (empty_framework (length args)) (prod_swap <$> att))
    as (af & Haf & Hk & Hl);
    [by apply wf_edges_swap|apply has_keys_empty_framework|].
  rewrite Haf. exists af. split; [done|]. split; [done|].
  intros a Ha. rewrite Hl, lookup_empty_framework.
  rewrite decide_True by by apply pos_lt. cbn.
  by rewrite edges_from_swap.
Qed.

Lemma attack_loop_bad args yhat att :
  ¬ wf_edges args att →
  attack_loop args yhat att (empty_framework (length args), false) = Raise ValueError.
Proof.
  intros Hbad. rewrite attack_loop_add_edges, add_edges_bad;
    [done|apply has_keys_empty_framework|by rewrite wf_edges_swap].
Qed.

(** ** Acceptability: the score *)

Section Acceptability.

Variables (args : list string) (att : list (string * string)).
Variable af : gmap nat (list nat).
Hypothesis Hwf : wf_edges args att.
Hypothesis Haf :
  ∀ a, a ∈ args → af !! pos args a = Some (pos args <$> attackers_of att a).

Lemma attackers_of_args a b : b ∈ attackers_of att a → b ∈ args.
Proof. intros H%attackers_of_elem. by destruct (Hwf _ H). Qed.

Lemma count_attacked_Ok (L : list string) (k : nat) :
  (∀ b, b ∈ L → b ∈ args) →
  count_attacked af (pos args <$> L) k
  = Ok (k + length (filter (λ b, attackers_of att b ≠ []) L)).
Proof.
  revert k. induction L as [|b L IH]; intros k HL.
  - cbn. f_equal. lia.
  - cbn [fmap list_fmap count_attacked]. unfold dict_get.
    rewrite Haf by (apply HL; left). unbind.
    rewrite IH by (intros; apply HL; by right).
    rewrite filter_cons. f_equal.
    destruct (attackers_of att b) as [|c l]; cbn.
    + rewrite decide_False by auto. lia.
    + rewrite decide_True by done. cbn. lia.
Qed.

Lemma local_score_Ok a :
  a ∈ args → local_score args af a = Ok (local_acceptability att a).
Proof.
  intros Ha. unfold local_score, local_acceptability.
  rewrite (index_pos _ _ Ha). unbind. unfold dict_get. rewrite (Haf _ Ha).
  pose proof (attackers_of_args a) as HL.
  destruct (attackers_of att a) as [|b L] eqn:E; [done|].
  cbn [fmap list_fmap]. change (pos args b :: (pos args <$> L))
    with (pos args <$> (b :: L)).
  rewrite count_attacked_Ok by done. by rewrite length_fmap.
Qed.

Lemma local_score_bad a : a ∉ args → local_score args af a = Raise ValueError.
Proof. intros Ha. unfold local_score. by rewrite (index_not_elem _ _ Ha). Qed.

Lemma score_loop_Ok (yhat : list string) (score : Q) :
  (∀ a, a ∈ yhat → a ∈ args) →
  ∃ s, score_loop args af yhat score = Ok s
       ∧ (s == score + foldr Qplus 0 (local_acceptability att <$> yhat))%Q.
Proof.
  revert score. induction yhat as [|a yhat IH]; intros score Hy.
  - exists score. split; [done|]. cbn. ring.
  - cbn [score_loop]. rewrite local_score_Ok by (apply Hy; left). unbind.
    destruct (IH (score + local_acceptability att a)%Q) as (s & Hs & Heq);
      [intros; apply Hy; by right|].
    exists s. split; [done|]. rewrite Heq. cbn. ring.
Qed.

Lemma score_loop_bad (yhat : list string) (score : Q) :
  ¬ (∀ a, a ∈ yhat → a ∈ args) →
  score_loop args af yhat score = Raise ValueError.
Proof.
  revert score. induction yhat as [|a yhat IH]; intros score Hy.
  - destruct Hy. by intros a ?%elem_of_nil.
  - cbn [score_loop]. destruct (decide (a ∈ args)) as [Ha|Ha].
    + rewrite local_score_Ok by done. unbind. apply IH.
      intros H. apply Hy. by intros b [->|Hb]%elem_of_cons; auto.
    + by rewrite local_score_bad.
Qed.

End Acceptability.

Lemma yhat_attacked_false yhat att :
  (∀ p, p ∈ att → p.2 ∉ yhat) → yhat_attacked yhat att = false.
Proof.
  intros H. destruct (yhat_attacked yhat att) eqn:E; [|done].
  unfold yhat_attacked in E.
  apply existsb_exists in E as (p & Hp%list_elem_of_In & Hy%bool_decide_eq_true).
  by destruct (H p Hp).
Qed.

Lemma acceptability_Ok args att yhat :
  wf_edges args att → (∀ a, a ∈ yhat → a ∈ args) →
  yhat_attacked yhat att = true →
  returns (compute_dialectical_acceptability args att yhat)
          (acceptability args att yhat).
Proof.
  intros Hwf Hy Hatt. unfold compute_dialectical_acceptability.
  destruct (attack_loop_Ok args yhat att Hwf) as (af & -> & Hk & Haf).
  unbind. rewrite Hatt. cbn [negb].
  destruct (score_loop_Ok args att af Hwf Haf yhat 0%Q Hy) as (s & -> & Hs).
  apply yhat_attacked_true in Hatt as (a & Ha & Hne).
  assert (a ∈ args) as Hin by auto.
  destruct args as [|x args']; [by apply elem_of_nil in Hin|].
  cbn [truediv_Q length]. eexists. split; [done|].
  unfold acceptability. rewrite Hs. cbn [length].
  rewrite Qplus_0_l. reflexivity.
Qed.

(** C2.  When the pairs of [attack_relations] and the members of
    [args_y_hat] are arguments of [args] and some member of [args_y_hat] is
    attacked, [compute_dialectical_acceptability] returns the sum over
    [args_y_hat] of the local scores (1 without attackers, otherwise the
    fraction of the attackers that are attacked themselves) divided by
    [len(args)]. *)
Theorem acceptability_is_normalised_sum args attack_relations args_y_hat :
  args ≠ [] →
  wf_edges args attack_relations →
  (∀ a, a ∈ args_y_hat → a ∈ args) →
  (∃ a, a ∈ args_y_hat ∧ attackers_of attack_relations a ≠ []) →
  returns (compute_dialectical_acceptability args attack_relations args_y_hat)
          (acceptability args attack_relations args_y_hat).
Proof.
  intros _ Hwf Hy Hatt. apply (acceptability_Ok args); [done..|].
  by apply yhat_attacked_true.
Qed.

Lemma acceptability_is_normalised_sum_witness :
  returns
    (compute_dialectical_acceptability ["A"; "B"; "C"; "D"]
       [("B", "A"); ("C", "A"); ("D", "C")] ["A"; "B"])
    (acceptability ["A"; "B"; "C"; "D"] [("B", "A"); ("C", "A"); ("D", "C")]
       ["A"; "B"]).
Proof.
  apply acceptability_is_normalised_sum.
  - discriminate.
  - apply (bool_decide_unpack _). vm_compute. reflexivity.
  - intros a Ha. apply list_elem_of_In in Ha. apply list_elem_of_In.
    cbn in *. intuition.
  - exists "A"%string. split; [left|]. vm_compute. discriminate.
Defined.

Lemma acceptability_unattacked_Ok args att yhat :
  wf_edges args att → (∀ p, p ∈ att → p.2 ∉ yhat) →
  compute_dialectical_acceptability args att yhat = Ok 1%Q.
Proof.
  intros Hwf H. unfold compute_dialectical_acceptability.
  destruct (attack_loop_Ok args yhat att Hwf) as (af & -> & _).
  unbind. by rewrite yhat_attacked_false.
Qed.

(** C8.  When no member of [args_y_hat] is the attacked member of an attack
    pair (and the pairs are pairs of arguments of [args]),
    [compute_dialectical_acceptability] returns exactly 1, whatever the
    number of arguments and the attacks on other arguments. *)
Theorem acceptability_unattacked args attack_relations args_y_hat :
  wf_edges args attack_relations →
  (∀ p, p ∈ attack_relations → p.2 ∉ args_y_hat) →
  compute_dialectical_acceptability args attack_relations args_y_hat = Ok 1%Q.
Proof.
  intros Hwf Hfree. unfold compute_dialectical_acceptability.
  destruct (attack_loop_Ok args args_y_hat attack_relations Hwf)
    as (af_attacks & Hloop & _).
  rewrite Hloop. unbind.
  rewrite (yhat_attacked_false _ _ Hfree). reflexivity.
Qed.

Lemma acceptability_unattacked_witness :
  compute_dialectical_acceptability ["A"; "B"; "C"] [("A", "B"); ("C", "B")] ["A"; "Z"]
  = Ok 1%Q.
Proof.
  apply acceptability_unattacked.
  - apply (bool_decide_unpack _). vm_compute. reflexivity.
  - intros p Hp Hin. apply list_elem_of_In in Hp, Hin. cbn in *.
    intuition (subst; cbn in *; congruence).
Defined.

(** C6, as the code has it.  An attack pair with a member that is not in
    [args] makes the call raise the [ValueError] of [args.index]; so does a
    member of [args_y_hat] that is not in [args], provided that some attack
    pair has a member of [args_y_hat] as its attacked member.  When no
    member of [args_y_hat] is attacked, the members of [args_y_hat] are not
    looked up and the call returns 1. *)
Theorem acceptability_lookup_failure args attack_relations args_y_hat :
  (¬ wf_edges args attack_relations →
   compute_dialectical_acceptability args attack_relations args_y_hat
   = Raise ValueError)
  ∧ (wf_edges args attack_relations →
     (∃ p, p ∈ attack_relations ∧ p.2 ∈ args_y_hat) →
     (∃ a, a ∈ args_y_hat ∧ a ∉ args) →
     compute_dialectical_acceptability args attack_relations args_y_hat
     = Raise ValueError)
  ∧ (wf_edges args attack_relations →
     (∀ p, p ∈ attack_relations → p.2 ∉ args_y_hat) →
     compute_dialectical_acceptability args attack_relations args_y_hat
     = Ok 1%Q).
Proof.
  split; [|split; [|apply acceptability_unattacked_Ok]].
  - intros Hbad. unfold compute_dialectical_acceptability.
    by rewrite attack_loop_bad.
  - intros Hwf (p & Hp & Hy) (a & Ha & Hnin).
    unfold compute_dialectical_acceptability.
    destruct (attack_loop_Ok args args_y_hat attack_relations Hwf)
      as (af & -> & Hk & Haf).
    unbind.
    assert (yhat_attacked args_y_hat attack_relations = true) as ->.
    { apply existsb_exists. exists p.
      split; [by apply list_elem_of_In|by apply bool_decide_eq_true]. }
    cbn [negb].
    rewrite (score_loop_bad args attack_relations af Hwf Haf); [done|].
    intros H. by apply Hnin, H.
Qed.

Lemma acceptability_lookup_failure_witness :
  compute_dialectical_acceptability ["A"; "B"] [("A", "Z")] ["A"] = Raise ValueError
  ∧ compute_dialectical_acceptability ["A"; "B"] [("A", "B")] ["B"; "Z"]
    = Raise ValueError
  ∧ compute_dialectical_acceptability ["A"; "B"] [("A", "B")] ["A"; "Z"] = Ok 1%Q.
Proof.
  split; [|split].
  - apply (proj1 (acceptability_lookup_failure ["A"; "B"] [("A", "Z")] ["A"])).
    intros Hwf. destruct (Hwf ("A", "Z")) as [_ H]; [left|].
    apply list_elem_of_In in H. cbn in H. intuition congruence.
  - apply (proj1 (proj2 (acceptability_lookup_failure ["A"; "B"] [("A", "B")]
                           ["B"; "Z"]))).
    + apply (bool_decide_unpack _). vm_compute. reflexivity.
    + exists ("A", "B"). split; left.
    + exists "Z"%string. split; [right; left|].
      intros H. apply list_elem_of_In in H. cbn in H. intuition congruence.
  - apply (proj2 (proj2 (acceptability_lookup_failure ["A"; "B"] [("A", "B")]
                           ["A"; "Z"]))).
    + apply (bool_decide_unpack _). vm_compute. reflexivity.
    + intros p Hp Hin. apply list_elem_of_In in Hp, Hin. cbn in *.
      intuition (subst; cbn in *; congruence).
Defined.

(** C6, as stated, fails: an unknown member of [args_y_hat] goes unnoticed
    when no member of [args_y_hat] is attacked; the call returns 1. *)
Lemma acceptability_unknown_yhat_ignored :
  ("Z" ∈ ["Z"]) ∧ ("Z" ∉ ["A"; "B"])
  ∧ compute_dialectical_acceptability ["A"; "B"] [("A", "B")] ["Z"] = Ok 1%Q
  ∧ ¬ (∃ e, compute_dialectical_acceptability ["A"; "B"] [("A", "B")] ["Z"]
            = Raise e).
Proof.
  split; [left|]. split; [|split; [reflexivity|by intros [e He]]].
  intros H. apply list_elem_of_In in H. cbn in H. intuition congruence.
Qed.

(** ** Duplicate attack pairs *)

Lemma get_attackers_ext args att att' i :
  (∀ e, e ∈ att ↔ e ∈ att') →
  get_attackers args att i = get_attackers args att' i.
Proof. intros H. unfold get_attackers. apply list_filter_iff. intros a. apply H. Qed.

Lemma attacker_loop_ext violates args att att' arg :
  (∀ e, e ∈ att ↔ e ∈ att') →
  attacker_loop violates args att arg = attacker_loop violates args att' arg.
Proof. intros H. unfold attacker_loop. by rewrite (get_attackers_ext _ _ att'). Qed.

Lemma existsb_ext' {A} (f g : A → bool) l :
  (∀ x, f x = g x) → existsb f l = existsb g l.
Proof. intros H. induction l as [|x l IH]; cbn; [done|]. by rewrite H, IH. Qed.

Lemma faithfulness_ext args att att' sup yhat top high label conf :
  (∀ e, e ∈ att ↔ e ∈ att') →
  compute_dialectical_faithfulness args att sup yhat top high label conf
  = compute_dialectical_faithfulness args att' sup yhat top high label conf.
Proof.
  intros H. unfold compute_dialectical_faithfulness.
  repeat case_match; f_equal; apply existsb_ext'; intros arg;
    rewrite ?(attacker_loop_ext _ _ att att' _ H); done.
Qed.

(** C10.  [get_attackers] keeps the elements of [args] that satisfy the
    membership test, each position of [args] at most once and in the order
    of [args]; it and the faithfulness result depend only on which pairs
    occur in [attack_relations], not on how often, so a repeated pair
    changes neither.  The attackers dictionary of
    [compute_dialectical_acceptability] has one entry per attack pair,
    repeated pairs included, and a repeated pair changes the score. *)
Theorem duplicate_attack_pairs :
  (∀ args att i, get_attackers args att i `sublist_of` args)
  ∧ (∀ args att i, NoDup args → NoDup (get_attackers args att i))
  ∧ (∀ args e att i,
       get_attackers args (e :: e :: att) i = get_attackers args (e :: att) i)
  ∧ (∀ args e att sup yhat top high label conf,
       compute_dialectical_faithfulness args (e :: e :: att) sup yhat top high
         label conf
       = compute_dialectical_faithfulness args (e :: att) sup yhat top high
           label conf)
  ∧ (∀ args att yhat,
       wf_edges args att →
       ∃ af flag,
         attack_loop args yhat att (empty_framework (length args), false)
         = Ok (af, flag)
         ∧ ∀ a, a ∈ args →
             ∃ l, af !! pos args a = Some l
                  ∧ length l = length (filter (λ p, p.2 = a) att))
  ∧ (returns (compute_dialectical_acceptability ["A"; "B"; "C"; "D"]
                [("B", "A"); ("C", "A"); ("D", "C")] ["A"]) (1 # 8)
     ∧ returns (compute_dialectical_acceptability ["A"; "B"; "C"; "D"]
                  [("B", "A"); ("C", "A"); ("C", "A"); ("D", "C")] ["A"]) (1 # 6)).
Proof.
  assert (∀ (e : Z * Z) att x, x ∈ e :: e :: att ↔ x ∈ e :: att) as Hdup.
  { intros e att x. rewrite !elem_of_cons. tauto. }
  repeat apply conj.
  - intros args att i. apply sublist_filter.
  - intros args att i. apply NoDup_filter.
  - intros args e att i. apply get_attackers_ext, Hdup.
  - intros. apply faithfulness_ext, Hdup.
  - intros args att yhat Hwf.
    destruct (attack_loop_Ok args yhat att Hwf) as (af & Hloop & _ & Haf).
    exists af, (yhat_attacked yhat att). split; [done|]. intros a Ha.
    eexists. split; [by apply Haf|].
    unfold attackers_of. by rewrite !length_fmap.
  - eexists. split; [vm_compute; reflexivity|reflexivity].
  - eexists. split; [vm_compute; reflexivity|reflexivity].
Qed.

Lemma duplicate_attack_pairs_witness :
  NoDup (get_attackers
           [mk_argument 1 "yes" (1 # 2); mk_argument 2 "no" (1 # 3)]
           [(2, 1)%Z; (2, 1)%Z] 1%Z)
  ∧ ∃ af flag,
      attack_loop ["A"; "B"] ["A"] [("B", "A"); ("B", "A")]
        (empty_framework (length ["A"; "B"]), false) = Ok (af, flag)
      ∧ ∀ a, a ∈ ["A"; "B"] →
          ∃ l, af !! pos ["A"; "B"] a = Some l
               ∧ length l = length (filter (λ p, p.2 = a) [("B", "A"); ("B", "A")]).
Proof.
  destruct duplicate_attack_pairs as (_ & Hnodup & _ & _ & Hdict & _). split.
  - apply Hnodup.
    apply NoDup_cons. split; [|apply NoDup_singleton].
    intros H. apply list_elem_of_In in H. cbn in H. destruct H as [H|[]].
    discriminate.
  - apply Hdict. apply (bool_decide_unpack _). vm_compute. reflexivity.
Defined.

(** ** The traversal *)

Lemma dfs_cycle_unfold fuel af start m :
  _dfs_cycle (S fuel) af start m
  = visited ← list_set m.1 start true;
    stack ← list_set m.2 start true;
    succs ← dict_get af start;
    dfs_loop (_dfs_cycle fuel af) start succs (visited, stack).
Proof. reflexivity. Qed.

Lemma reaches_cycle_edge af u w :
  edge af u w → reaches_cycle af w → reaches_cycle af u.
Proof. intros He (v & Hr & Hc). exists v. split; [by eapply rtc_l|done]. Qed.

Lemma reaches_cycle_succ af u :
  reaches_cycle af u → ∃ w, edge af u w ∧ reaches_cycle af w.
Proof.
  intros (v & Hr & Hc). destruct Hr as [u|u w v He Hr].
  - inversion Hc as [? ? He|? w ? He Hc']; subst.
    + exists u. split; [done|]. exists u. split; [done|by apply tc_once].
    + exists w. split; [done|]. exists u. split; [by apply tc_rtc|done].
  - exists w. split; [done|]. by exists v.
Qed.

Lemma unvisited_count_insert (visited : list bool) i :
  visited !! i = Some false →
  unvisited_count (<[i:=true]> visited) + 1 = unvisited_count visited.
Proof.
  unfold unvisited_count. revert i.
  induction visited as [|b V IH]; intros i Hi; [done|].
  destruct i as [|i]; cbn in Hi.
  - injection Hi as ->. change (<[0:=true]> (false :: V)) with (true :: V).
    rewrite !filter_cons.
    rewrite decide_False by done. rewrite decide_True by done. cbn. lia.
  - change (<[S i:=true]> (b :: V)) with (b :: <[i:=true]> V).
    rewrite !filter_cons. specialize (IH i Hi).
    case_decide; cbn; lia.
Qed.

Lemma unvisited_count_mono (V V' : list bool) :
  length V = length V' →
  (∀ u, V !! u = Some true → V' !! u = Some true) →
  unvisited_count V' ≤ unvisited_count V.
Proof.
  unfold unvisited_count. revert V'.
  induction V as [|b V IH]; intros [|b' V'] Hlen Hm; try done.
  injection Hlen as Hlen. rewrite !filter_cons.
  specialize (IH V' Hlen (λ u, Hm (S u))).
  specialize (Hm 0). cbn in Hm.
  destruct b, b'; repeat case_decide; try done; cbn; try lia.
  by specialize (Hm eq_refl).
Qed.

Lemma unvisited_count_le (V : list bool) : unvisited_count V ≤ length V.
Proof. unfold unvisited_count. apply length_filter. Qed.

Section Traversal.

Variables (af : gmap nat (list nat)) (n : nat).
Hypothesis Hg : wf_graph n af.

Lemma succ_lt start l w : af !! start = Some l → start < n → w ∈ l → w < n.
Proof.
  intros Hl Hs Hw. destruct (Hg start Hs) as (l' & Hl' & Hall).
  assert (l' = l) as -> by congruence.
  by apply (proj1 (Forall_forall _ _) Hall).
Qed.

Lemma dfs_loop_spec (fuel start : nat) :
  (∀ arg m, dfs_pre af n fuel arg m →
     ∃ found m', _dfs_cycle fuel af arg m = Ok (found, m')
                 ∧ dfs_post af n arg m found m') →
  start < n →
  ∀ l seen m,
    af !! start = Some (seen ++ l) →
    (∀ w, w ∈ seen → ¬ reaches_cycle af w) →
    length m.1 = n → length m.2 = n →
    m.1 !! start = Some true →
    unvisited_count m.1 ≤ fuel →
    acyclic_finished af m → open_ok af start m →
    ∃ found m', dfs_loop (_dfs_cycle fuel af) start l m = Ok (found, m')
                ∧ dfs_post af n start m found m'.
Proof.
  intros IHf Hstart l.
  induction l as [|arg rest IHl];
    intros seen [V S] Hsuccs Hdone HlenV HlenS HVstart Hcount Hacy Hopen;
    cbn [fst snd] in *.
  - rewrite app_nil_r in Hsuccs. cbn. unfold list_set.
    rewrite decide_True by lia. cbn.
    exists false, (V, <[start:=false]> S). split; [done|].
    unfold dfs_post. cbn [fst snd].
    split; [done|]. split; [by rewrite length_insert|]. split; [done|].
    split; [done|]. split.
    + intros u Hv Hs. cbn [fst snd] in *.
      destruct (decide (u = start)) as [->|Hne].
      * intros (w & (l' & Hl' & Hw) & Hrc)%reaches_cycle_succ.
        assert (l' = seen) as -> by congruence. by apply (Hdone w).
      * rewrite list_lookup_insert_ne in Hs by done. by apply Hacy.
    + intros u Hu. destruct (decide (u = start)) as [->|Hne].
      * rewrite list_lookup_insert_eq in Hu by lia. done.
      * by rewrite list_lookup_insert_ne in Hu by done.
  - assert (edge af start arg) as Hedge.
    { eexists. split; [done|]. apply elem_of_app. right. left. }
    assert (arg < n) as Harg.
    { destruct Hedge as (l' & Hl' & Hw). exact (succ_lt start l' arg Hl' Hstart Hw). }
    assert (af !! start = Some ((seen ++ [arg]) ++ rest)) as Hsuccs'.
    { by rewrite <- app_assoc. }
    cbn [dfs_loop]. unfold list_get. cbn [fst snd].
    destruct (lookup_lt_is_Some_2 V arg) as [v Hv]; [lia|].
    rewrite Hv. cbn. destruct v; cbn.
    + destruct (lookup_lt_is_Some_2 S arg) as [s Hs]; [lia|].
      rewrite Hs. cbn. destruct s.
      * exists true, (V, S). split; [done|].
        unfold dfs_post. cbn [fst snd]. split_and!; auto.
        destruct (Hopen arg Hs) as [Hrc|Hback].
        -- by eapply reaches_cycle_edge.
        -- exists start. split; [done|]. by eapply tc_rtc_r; [apply tc_once|].
      * apply (IHl (seen ++ [arg]) (V, S)); try done.
        intros w [Hw|Hw%list_elem_of_singleton]%elem_of_app; [by apply Hdone|].
        subst. by apply Hacy.
    + destruct (IHf arg (V, S)) as (found & [V' S'] & -> & Hpost).
      { unfold dfs_pre. cbn [fst snd]. split_and!; try done.
        intros u Hu. destruct (Hopen u Hu) as [Hrc|Hback]; [by left|].
        right. by eapply rtc_r. }
      destruct Hpost as (HlenV' & HlenS' & Hmono & HVarg & Hacy' & Hres).
      cbn [fst snd] in *. cbn. destruct found.
      * destruct Hres as [Hrc HS']. exists true, (V', S'). split; [done|].
        unfold dfs_post. cbn [fst snd]. split_and!; auto.
        by eapply reaches_cycle_edge.
      * destruct (IHl (seen ++ [arg]) (V', S')) as (found & [V'' S''] & -> & Hpost);
          cbn [fst snd]; try done.
        { intros w [Hw|Hw%list_elem_of_singleton]%elem_of_app; [by apply Hdone|].
          subst. apply Hacy'; cbn [fst snd]; [done|].
          destruct (lookup_lt_is_Some_2 S' arg) as [[] Hs]; [lia| |done].
          by destruct (Hres arg Hs). }
        { by apply Hmono. }
        { etrans; [|apply Hcount]. apply unvisited_count_mono; [lia|done]. }
        { intros u Hu. apply Hopen. by apply Hres. }
        destruct Hpost as (HlenV'' & HlenS'' & Hmono' & HVstart' & Hacy'' & Hres').
        cbn [fst snd] in *.
        exists found, (V'', S''). split; [done|].
        unfold dfs_post. cbn [fst snd]. split_and!; auto.
        destruct found.
        -- destruct Hres' as [Hrc HS'']. split; [done|].
           intros u Hu. destruct (HS'' u Hu) as [HuS'|?]; [|by right].
           left. by apply Hres.
        -- intros u Hu. destruct (Hres' u Hu) as [HuS' Hne].
           split; [|done]. by apply Hres.
Qed.

(** The traversal terminates within the fuel that the number of
    unvisited nodes asks for, raises nothing, and meets [dfs_post]. *)
Lemma dfs_cycle_terminates fuel start m :
  dfs_pre af n fuel start m →
  ∃ found m', _dfs_cycle fuel af start m = Ok (found, m')
              ∧ dfs_post af n start m found m'.
Proof.
  revert start m. induction fuel as [|fuel IH];
    intros start [V S] (HlenV & HlenS & Hstart & HV & Hcount & Hacy & Hopen);
    cbn [fst snd] in *.
  - pose proof (unvisited_count_insert V start HV). lia.
  - rewrite dfs_cycle_unfold. unfold list_set. cbn [fst snd].
    rewrite !decide_True by lia. cbn.
    destruct (Hg start Hstart) as (succs & Hsuccs & Hall).
    unfold dict_get. rewrite Hsuccs. cbn.
    destruct (dfs_loop_spec fuel start IH Hstart succs []
                (<[start:=true]> V, <[start:=true]> S))
      as (found & [V' S'] & Hrun & Hpost); cbn [fst snd].
    + done.
    + by intros w ?%elem_of_nil.
    + by rewrite length_insert.
    + by rewrite length_insert.
    + apply list_lookup_insert_eq. lia.
    + pose proof (unvisited_count_insert V start HV). lia.
    + intros u Hu Hs. cbn [fst snd] in *.
      destruct (decide (u = start)) as [->|Hne].
      * rewrite list_lookup_insert_eq in Hs by lia. done.
      * rewrite list_lookup_insert_ne in Hu, Hs by done. by apply Hacy.
    + intros u Hu. cbn [fst snd] in *.
      destruct (decide (u = start)) as [->|Hne]; [by right|].
      rewrite list_lookup_insert_ne in Hu by done. by apply Hopen.
    + exists found, (V', S'). split; [done|].
      destruct Hpost as (HlenV' & HlenS' & Hmono & HVstart & Hacy' & Hres).
      cbn [fst snd] in *. unfold dfs_post. cbn [fst snd]. split_and!; auto.
      * intros u Hu. apply Hmono.
        destruct (decide (u = start)) as [->|Hne]; [congruence|].
        by rewrite list_lookup_insert_ne.
      * destruct found.
        -- destruct Hres as [Hrc HS']. split; [done|].
           intros u Hu. destruct (HS' u Hu) as [HuS|?]; [|by right].
           destruct (decide (u = start)) as [->|Hne]; [by right|].
           left. by rewrite list_lookup_insert_ne in HuS.
        -- intros u Hu. destruct (Hres u Hu) as [HuS Hne].
           split; [|done]. by rewrite list_lookup_insert_ne in HuS.
Qed.

Lemma root_invocations_spec nodes m :
  Forall (λ j, j < n) nodes → top_inv af n m →
  ∃ roots, root_invocations n af nodes m = Ok roots
           ∧ ∀ r found, (r, found) ∈ roots →
               r ∈ nodes ∧ (found = true ↔ reaches_cycle af r).
Proof.
  revert m. induction nodes as [|node rest IH];
    intros [V S] Hnodes (HlenV & HlenS & Hacy & Hstack); cbn [fst snd] in *.
  - exists []. split; [done|]. by intros r b ?%elem_of_nil.
  - apply Forall_cons in Hnodes as [Hnode Hrest].
    cbn [root_invocations]. unfold list_get. cbn [fst snd].
    destruct (lookup_lt_is_Some_2 V node) as [v Hv]; [lia|].
    rewrite Hv. cbn. destruct v; cbn.
    + destruct (IH (V, S) Hrest) as (roots & -> & Hroots); [done|].
      exists roots. split; [done|]. intros r b Hin.
      destruct (Hroots r b Hin). split; [by right|done].
    + destruct (dfs_cycle_terminates n node (V, S))
        as (found & [V' S'] & -> & Hpost).
      { unfold dfs_pre. cbn [fst snd]. split_and!; try done.
        - pose proof (unvisited_count_le V). lia.
        - intros u Hu. left. by apply Hstack. }
      destruct Hpost as (HlenV' & HlenS' & Hmono & HVnode & Hacy' & Hres).
      cbn [fst snd] in *. cbn.
      assert (found = true ↔ reaches_cycle af node) as Hfound.
      { destruct found; [by intuition|]. split; [done|]. intros Hrc.
        exfalso. apply (Hacy' node); cbn [fst snd]; [done| |done].
        destruct (lookup_lt_is_Some_2 S' node) as [[] Hs]; [lia| |done].
        by destruct (Hres node Hs). }
      destruct (IH (V', S') Hrest) as (roots & -> & Hroots).
      { unfold top_inv. cbn [fst snd]. split_and!; try done.
        intros u Hu. destruct found.
        - destruct Hres as [_ HS']. destruct (HS' u Hu); auto.
        - apply Hstack. by apply Hres. }
      exists ((node, found) :: roots). split; [done|].
      intros r b [[= -> ->]|Hin]%elem_of_cons.
      * split; [left|done].
      * destruct (Hroots r b Hin). split; [by right|done].
Qed.

End Traversal.

Lemma circularity_loop_roots fuel af nodes m score :
  circularity_loop fuel af nodes m score
  = roots ← root_invocations fuel af nodes m;
    Ok (score + length (filter (λ r, r.2 = true) roots)).
Proof.
  revert m score. induction nodes as [|node rest IH]; intros m score.
  - cbn. f_equal. lia.
  - cbn [circularity_loop root_invocations]. unfold mbind, outcome_bind, bind.
    destruct (list_get m.1 node) as [v| |]; [|done..].
    destruct (negb v); [|apply IH].
    destruct (_dfs_cycle fuel af node m) as [[found m']| |]; [|done..].
    rewrite IH. unfold mbind, outcome_bind, bind.
    destruct (root_invocations fuel af rest m') as [roots| |]; [|done..].
    f_equal. rewrite filter_cons. cbn [snd].
    destruct found; [rewrite decide_True by done|rewrite decide_False by done];
      cbn; lia.
Qed.

Lemma framework_wf_graph args pairs af :
  wf_edges args pairs →
  (∀ i, i < length args → af !! i = Some (edges_from args pairs i)) →
  wf_graph (length args) af.
Proof.
  intros Hwf Haf i Hi. exists (edges_from args pairs i). split; [by apply Haf|].
  apply Forall_forall. intros j (p & -> & [_ Hp]%list_elem_of_filter)%list_elem_of_fmap.
  apply pos_lt. by destruct (Hwf p Hp).
Qed.

Lemma top_inv_init af n :
  top_inv af n (replicate n false, replicate n false).
Proof.
  unfold top_inv. cbn [fst snd]. rewrite !length_replicate. split_and!; try done.
  - by intros u [? _]%lookup_replicate.
  - by intros u [? _]%lookup_replicate.
Qed.

Lemma index_pair_l (A B : string) : index [A; B] A = Ok 0.
Proof. cbn. by rewrite decide_True. Qed.

Lemma index_pair_r (A B : string) :
  index [A; B] B = Ok (if decide (A = B) then 0 else 1).
Proof. cbn. case_decide; [done|]. by rewrite decide_True. Qed.

(** The score is the number of root invocations that return [True] over
    the number of arguments, and a root invocation returns [True] exactly
    when a cycle can be reached from its root. *)
Lemma circularity_roots args att sup :
  args ≠ [] → wf_edges args (att ++ sup) →
  ∃ af roots,
    framework args att sup = Ok af
    ∧ (∀ i, i < length args → af !! i = Some (edges_from args (att ++ sup) i))
    ∧ root_invocations (length args) af (seq 0 (length args))
        (replicate (length args) false, replicate (length args) false)
      = Ok roots
    ∧ (∀ r found, (r, found) ∈ roots →
         r < length args ∧ (found = true ↔ reaches_cycle af r))
    ∧ compute_circularity args att sup
      = Ok (Z.of_nat (length (filter (λ r, r.2 = true) roots))
            # Pos.of_nat (length args)).
Proof.
  intros Hne Hwf.
  destruct (framework_Ok args att sup Hwf) as (af & Haf & Hk & Hl).
  pose proof (framework_wf_graph _ _ _ Hwf Hl) as Hg.
  destruct (root_invocations_spec af (length args) Hg (seq 0 (length args))
              (replicate (length args) false, replicate (length args) false))
    as (roots & Hroots & Hspec).
  { apply Forall_forall. intros j Hj%elem_of_seq. lia. }
  { apply top_inv_init. }
  exists af, roots. split_and!; try done.
  - intros r found Hin. destruct (Hspec r found Hin) as [Hr%elem_of_seq ?].
    split; [lia|done].
  - rewrite compute_circularity_framework, Haf. unfold mbind, outcome_bind, bind.
    rewrite circularity_loop_roots, Hroots. cbn.
    destruct args; [done|]. reflexivity. 
Qed.

(** C1.  For a non-empty argument list whose pairs are pairs of its
    arguments, [compute_circularity] builds the framework with an edge from
    the first to the second member of every attack pair and of every
    support pair, invokes the traversal from the nodes, in index order,
    that are not yet visited, and returns the number of these root
    invocations that detect a cycle divided by the number of arguments; a
    root invocation detects a cycle exactly when one can be reached from
    its root.  Without any pair the result is 0, and
    for two arguments attacking each other it is 1/2. *)
Theorem circularity_counts_cyclic_roots :
  (∀ args att sup,
     args ≠ [] → wf_edges args (att ++ sup) →
     ∃ af roots,
       framework args att sup = Ok af
       ∧ (∀ i, i < length args → af !! i = Some (edges_from args (att ++ sup) i))
       ∧ root_invocations (length args) af (seq 0 (length args))
           (replicate (length args) false, replicate (length args) false)
         = Ok roots
       ∧ (∀ r found, (r, found) ∈ roots →
            r < length args ∧ (found = true ↔ reaches_cycle af r))
       ∧ compute_circularity args att sup
         = Ok (Z.of_nat (length (filter (λ r, r.2 = true) roots))
               # Pos.of_nat (length args)))
  ∧ (∀ args, args ≠ [] → returns (compute_circularity args [] []) 0)
  ∧ (∀ A B, compute_circularity [A; B] [(A, B); (B, A)] [] = Ok (1 # 2)%Q).
Proof.
  pose proof circularity_roots as Hmain.
  split; [exact Hmain|]. split.
  - intros args Hne.
    destruct (Hmain args [] [] Hne) as (af & roots & _ & Hl & _ & Hspec & ->).
    { by intros p ?%elem_of_nil. }
    eexists. split; [done|].
    destruct (filter (λ r : nat * bool, r.2 = true) roots) as [|[r b] L] eqn:E;
      [done|].
    assert ((r, b) ∈ filter (λ r : nat * bool, r.2 = true) roots) as Hin
      by (rewrite E; left).
    apply list_elem_of_filter in Hin as [Hb Hin]. cbn in Hb. subst b.
    destruct (Hspec r true Hin) as [Hr [Hrc _]].
    destruct (reaches_cycle_succ af r (Hrc eq_refl)) as (w & (l & Hlr & Hw) & _).
    rewrite (Hl r Hr) in Hlr. injection Hlr as <-.
    by apply elem_of_nil in Hw.
  - intros A B. unfold compute_circularity. cbn [add_edges length].
    unfold add_edge. cbn [fst snd].
    rewrite !index_pair_l, !index_pair_r.
    destruct (decide (A = B)); vm_compute; reflexivity.
Qed.

Lemma circularity_counts_cyclic_roots_witness :
  ∃ af roots,
    framework ["A"; "B"; "C"] [("A", "B"); ("B", "A")] [("A", "C")] = Ok af
    ∧ root_invocations 3 af [0; 1; 2] ([false; false; false], [false; false; false])
      = Ok roots
    ∧ (∀ r found, (r, found) ∈ roots → found = true ↔ reaches_cycle af r)
    ∧ compute_circularity ["A"; "B"; "C"] [("A", "B"); ("B", "A")] [("A", "C")]
      = Ok (Z.of_nat (length (filter (λ r, r.2 = true) roots)) # 3)
    ∧ returns (compute_circularity ["A"; "B"; "C"] [] []) 0.
Proof.
  destruct circularity_counts_cyclic_roots as (Hmain & Hnone & _).
  destruct (Hmain ["A"; "B"; "C"] [("A", "B"); ("B", "A")] [("A", "C")])
    as (af & roots & Haf & _ & Hroots & Hspec & Hscore).
  - discriminate.
  - apply (bool_decide_unpack _). vm_compute. reflexivity.
  - exists af, roots. split_and!; [done|done| |done|].
    + intros r found Hin. by destruct (Hspec r found Hin).
    + apply Hnone. discriminate.
Defined.

(** The fuel [compute_circularity] gives the traversal is enough on every
    input. *)
Lemma compute_circularity_total args att sup :
  compute_circularity args att sup ≠ OutOfFuel.
Proof.
  destruct (decide (wf_edges args (att ++ sup))) as [Hwf|Hbad].
  - destruct args as [|a args].
    + by destruct att, sup.
    + destruct (circularity_roots (a :: args) att sup)
        as (af & roots & _ & _ & _ & _ & ->); done.
  - by rewrite compute_circularity_framework, framework_bad.
Qed.

(** ** Circularity: outcomes, range and the acyclic case *)

Lemma framework_lookup args att sup af i :
  framework args att sup = Ok af →
  af !! i = if decide (i < length args)
            then Some (edges_from args (att ++ sup) i) else None.
Proof.
  intros Haf.
  destruct (decide (wf_edges args (att ++ sup))) as [Hwf|Hbad];
    [|by rewrite (framework_bad _ _ _ Hbad) in Haf].
  rewrite framework_app in Haf. unfold framework in Haf.
  destruct (add_edges_Ok args (empty_framework (length args)) (att ++ sup) Hwf)
    as (d & Hd & _ & Hl); [apply has_keys_empty_framework|].
  rewrite Hd in Haf. cbn in Haf. injection Haf as <-.
  rewrite Hl, lookup_empty_framework. by case_decide.
Qed.

Lemma root_invocations_length fuel af nodes m roots :
  root_invocations fuel af nodes m = Ok roots → length roots ≤ length nodes.
Proof.
  revert m roots. induction nodes as [|node rest IH]; intros m roots.
  - by intros [= <-].
  - cbn [root_invocations]. unfold mbind, outcome_bind, bind.
    destruct (list_get m.1 node) as [v| |]; [|done..].
    destruct (negb v).
    + destruct (_dfs_cycle fuel af node m) as [[found m']| |]; [|done..].
      destruct (root_invocations fuel af rest m') as [roots'| |] eqn:E; [|done..].
      intros [= <-]. apply IH in E. cbn. lia.
    + intros H%IH. cbn. lia.
Qed.

Lemma Qmake_unit_interval (k n : nat) :
  n ≠ 0 → k ≤ n → (0 <= Z.of_nat k # Pos.of_nat n)%Q ∧ (Z.of_nat k # Pos.of_nat n <= 1)%Q.
Proof.
  intros Hn Hk. unfold Qle. cbn [Qnum Qden]. split; [lia|].
  rewrite Z.mul_1_r, Z.mul_1_l.
  rewrite <- (positive_nat_Z (Pos.of_nat n)), Nat2Pos.id by done. lia.
Qed.

(** X2.  Every value [compute_circularity] returns lies between 0 and 1. *)
Theorem circularity_unit_interval args att sup q :
  compute_circularity args att sup = Ok q → (0 <= q)%Q ∧ (q <= 1)%Q.
Proof.
  intros Hq.
  destruct (decide (wf_edges args (att ++ sup))) as [Hwf|Hbad];
    [|by rewrite compute_circularity_framework, framework_bad in Hq].
  destruct args as [|a args]; [by destruct att, sup|].
  destruct (circularity_roots (a :: args) att sup)
    as (af & roots & _ & _ & Hroots & _ & Hscore); [done..|].
  rewrite Hscore in Hq. injection Hq as <-.
  apply Qmake_unit_interval; [done|].
  apply root_invocations_length in Hroots. rewrite length_seq in Hroots.
  etrans; [apply length_filter|done].
Qed.

Lemma circularity_unit_interval_witness :
  (0 <= 2 # 3)%Q ∧ (2 # 3 <= 1)%Q.
Proof.
  apply (circularity_unit_interval ["A"; "B"; "C"]
           [("A", "B"); ("B", "A"); ("C", "A")] []).
  vm_compute. reflexivity.
Defined.

Section Acyclic.

Variables (af : gmap nat (list nat)) (n : nat).
Hypothesis Hg : wf_graph n af.

(** The counter of the loop of [compute_circularity] stays at 0 exactly
    when no node the loop goes through reaches a cycle. *)
Lemma circularity_loop_zero nodes m score :
  Forall (λ j, j < n) nodes → top_inv af n m →
  (score = 0 → ∀ u, m.2 !! u ≠ Some true) →
  ∃ score', circularity_loop n af nodes m score = Ok score'
            ∧ (score' = 0 ↔ score = 0 ∧ ∀ r, r ∈ nodes → ¬ reaches_cycle af r).
Proof.
  revert m score. induction nodes as [|node rest IH];
    intros [V S] score Hnodes (HlenV & HlenS & Hacy & Hstack) Hclear;
    cbn [fst snd] in *.
  - exists score. split; [done|]. split; [|by intros [? _]].
    intros ->. split; [done|]. by intros r ?%elem_of_nil.
  - apply Forall_cons in Hnodes as [Hnode Hrest].
    cbn [circularity_loop]. unfold list_get. cbn [fst snd].
    destruct (lookup_lt_is_Some_2 V node) as [v Hv]; [lia|].
    rewrite Hv. cbn. destruct v; cbn.
    + destruct (IH (V, S) score Hrest) as (score' & -> & Hiff); [done..|].
      exists score'. split; [done|]. rewrite Hiff. split.
      * intros [-> Hr]. split; [done|].
        intros r [->|Hin]%elem_of_cons; [|by apply Hr].
        apply Hacy; cbn [fst snd]; [done|].
        destruct (lookup_lt_is_Some_2 S node) as [[] Hs]; [lia| |done].
        by destruct (Hclear eq_refl node).
      * intros [-> Hr]. split; [done|]. intros r Hin. apply Hr. by right.
    + destruct (dfs_cycle_terminates af n Hg n node (V, S))
        as (found & [V' S'] & -> & Hpost).
      { unfold dfs_pre. cbn [fst snd]. split_and!; try done.
        - pose proof (unvisited_count_le V). lia.
        - intros u Hu. left. by apply Hstack. }
      destruct Hpost as (HlenV' & HlenS' & Hmono & HVnode & Hacy' & Hres).
      cbn [fst snd] in *. cbn.
      assert (found = true ↔ reaches_cycle af node) as Hfound.
      { destruct found; [by intuition|]. split; [done|]. intros Hrc.
        exfalso. apply (Hacy' node); cbn [fst snd]; [done| |done].
        destruct (lookup_lt_is_Some_2 S' node) as [[] Hs]; [lia| |done].
        by destruct (Hres node Hs). }
      destruct (IH (V', S') (if found then score + 1 else score) Hrest)
        as (score' & -> & Hiff).
      { unfold top_inv. cbn [fst snd]. split_and!; try done.
        intros u Hu. destruct found.
        - destruct Hres as [_ HS']. destruct (HS' u Hu); auto.
        - apply Hstack. by apply Hres. }
      { destruct found; [lia|]. intros -> u Hu.
        apply (Hclear eq_refl u). by apply Hres. }
      exists score'. split; [done|]. rewrite Hiff. destruct found.
      * split; [lia|]. intros [_ Hr]. exfalso.
        apply (Hr node); [left|]. by apply Hfound.
      * split.
        -- intros [-> Hr]. split; [done|].
           intros r [->|Hin]%elem_of_cons; [|by apply Hr].
           intros Hrc. by apply Hfound in Hrc.
        -- intros [-> Hr]. split; [done|]. intros r Hin. apply Hr. by right.
Qed.

End Acyclic.

(** X3.  On well-formed input [compute_circularity] returns 0 exactly when
    the framework it builds has no cycle. *)
Theorem circularity_zero_iff_acyclic args att sup af q :
  framework args att sup = Ok af →
  compute_circularity args att sup = Ok q →
  (q == 0)%Q ↔ ∀ v, ¬ tc (edge af) v v.
Proof.
  intros Haf Hq.
  destruct (decide (wf_edges args (att ++ sup))) as [Hwf|Hbad];
    [|by rewrite (framework_bad _ _ _ Hbad) in Haf].
  destruct (framework_Ok _ _ _ Hwf) as (af' & Haf' & _ & Hl).
  assert (af' = af) as -> by congruence.
  pose proof (framework_wf_graph _ _ _ Hwf Hl) as Hg.
  destruct (circularity_loop_zero af (length args) Hg (seq 0 (length args))
              (replicate (length args) false, replicate (length args) false) 0)
    as (score & Hloop & Hiff).
  { apply Forall_forall. intros j Hj%elem_of_seq. lia. }
  { apply top_inv_init. }
  { cbn [snd]. by intros _ u [? _]%lookup_replicate. }
  rewrite compute_circularity_framework, Haf in Hq.
  unfold mbind, outcome_bind, bind in Hq. rewrite Hloop in Hq.
  destruct args as [|a args]; [done|]. cbn [truediv length] in Hq.
  injection Hq as <-.
  assert ((Z.of_nat score # Pos.of_nat (S (length args)) == 0)%Q ↔ score = 0)
    as ->.
  { unfold Qeq. cbn [Qnum Qden]. lia. }
  rewrite Hiff. split.
  - intros [_ Hr] v Hc.
    assert (edge af v v ∨ ∃ w, edge af v w) as [(l & Hlv & _)|(w & l & Hlv & _)].
    { inversion Hc; subst; eauto. }
    + apply (Hr v).
      * apply elem_of_seq. rewrite (framework_lookup _ _ _ _ v Haf) in Hlv.
        case_decide; [lia|done].
      * by exists v.
    + apply (Hr v).
      * apply elem_of_seq. rewrite (framework_lookup _ _ _ _ v Haf) in Hlv.
        case_decide; [lia|done].
      * by exists v.
  - intros Hacy. split; [done|]. intros r _ (v & _ & Hc). by apply (Hacy v).
Qed.

Lemma circularity_zero_iff_acyclic_witness :
  ∃ af, framework ["A"; "B"; "C"] [("A", "B")] [("B", "C")] = Ok af
        ∧ ((0 # 3 == 0)%Q ↔ ∀ v, ¬ tc (edge af) v v).
Proof.
  destruct (framework_Ok ["A"; "B"; "C"] [("A", "B")] [("B", "C")])
    as (af & Haf & _).
  { apply (bool_decide_unpack _). vm_compute. reflexivity. }
  exists af. split; [done|].
  apply (circularity_zero_iff_acyclic ["A"; "B"; "C"] [("A", "B")] [("B", "C")]);
    [done|]. vm_compute. reflexivity.
Defined.

(** ** The traversal as a procedure on the two marker lists *)

Lemma visited_between (V V1 V' : list bool) u :
  length V1 = length V → length V' = length V1 →
  (∀ u, V !! u = Some true → V1 !! u = Some true) →
  (∀ u, V1 !! u = Some true → V' !! u = Some true) →
  V' !! u = V !! u → V1 !! u = V !! u ∧ V' !! u = V1 !! u.
Proof.
  intros Hlen1 Hlen' Hm1 Hm' Heq.
  destruct (V !! u) as [[]|] eqn:HV.
  - specialize (Hm1 u HV). rewrite Hm1. by rewrite Heq.
  - destruct (V1 !! u) as [[]|] eqn:HV1.
    + specialize (Hm' u HV1). congruence.
    + by rewrite Heq.
    + apply lookup_ge_None in HV1. apply lookup_lt_Some in HV. lia.
  - apply lookup_ge_None in HV.
    assert (V1 !! u = None) as -> by (apply lookup_ge_None; lia).
    by rewrite Heq.
Qed.

Lemma dfs_loop_frame fuel af start :
  (∀ arg m found m',
     m.1 !! arg = Some false →
     _dfs_cycle fuel af arg m = Ok (found, m') → frame_post arg m found m') →
  ∀ l m found m',
    m.1 !! start = Some true →
    dfs_loop (_dfs_cycle fuel af) start l m = Ok (found, m') →
    loop_frame_post start m found m'.
Proof.
  intros IHf l. induction l as [|arg rest IHl];
    intros [V S] found m' HVstart Hrun; cbn [fst snd] in *.
  - cbn in Hrun. unfold list_set in Hrun. cbn [fst snd] in Hrun.
    case_decide as Hlt; [|done]. cbn in Hrun. injection Hrun as <- <-.
    unfold loop_frame_post. cbn [fst snd].
    split; [done|]. split; [by rewrite length_insert|]. split; [done|].
    split; [|split].
    + intros u Hne _. by rewrite list_lookup_insert_ne.
    + by apply list_lookup_insert_eq.
    + intros u Hu Hu'. congruence.
  - cbn [dfs_loop] in Hrun. unfold list_get in Hrun. cbn [fst snd] in Hrun.
    destruct (V !! arg) as [v|] eqn:Hv; [|done]. cbn in Hrun.
    destruct v; cbn in Hrun.
    + destruct (S !! arg) as [s|] eqn:Hs; [|done]. cbn in Hrun.
      destruct s.
      * injection Hrun as <- <-. unfold loop_frame_post. cbn [fst snd]. auto.
      * by apply IHl.
    + destruct (_dfs_cycle fuel af arg (V, S)) as [[f1 [V1 S1]]| |] eqn:Hcall;
        [|done..].
      apply IHf in Hcall; [|done].
      destruct Hcall as (HlenV1 & HlenS1 & Hmono1 & HVarg & Hframe1 & Hres1).
      cbn [fst snd] in *. cbn in Hrun. destruct f1.
      * injection Hrun as <- <-. unfold loop_frame_post. cbn [fst snd]. auto.
      * apply IHl in Hrun; [|by apply Hmono1].
        destruct m' as [V' S'].
        destruct Hrun as (HlenV' & HlenS' & Hmono' & Hres'). cbn [fst snd] in *.
        unfold loop_frame_post. cbn [fst snd].
        split; [congruence|]. split; [congruence|]. split; [by auto|].
        destruct found.
        -- intros u Heq.
           destruct (visited_between V V1 V' u) as [H1 H2]; try done.
           rewrite (Hres' u H2). by apply Hframe1.
        -- destruct Hres' as (Hframe' & HSstart & Hnew'). split; [|split].
           ++ intros u Hne Heq.
              destruct (visited_between V V1 V' u) as [H1 H2]; try done.
              rewrite (Hframe' u Hne H2). by apply Hframe1.
           ++ done.
           ++ intros u Hu Hu'.
              destruct (V1 !! u) as [[]|] eqn:HV1.
              ** assert (u ≠ start) as Hne by congruence.
                 rewrite (Hframe' u Hne) by congruence. by apply Hres1.
              ** by apply Hnew'.
              ** apply lookup_ge_None in HV1. apply lookup_lt_Some in Hu. lia.
Qed.

Lemma dfs_cycle_frame fuel af start m found m' :
  m.1 !! start = Some false →
  _dfs_cycle fuel af start m = Ok (found, m') → frame_post start m found m'.
Proof.
  revert start m found m'. induction fuel as [|fuel IH];
    intros start [V S] found [V' S'] HV Hrun; [done|].
  rewrite dfs_cycle_unfold in Hrun.
  unfold list_set, mbind, outcome_bind, bind in Hrun. cbn [fst snd] in *.
  case_decide as HltV; [|done].
  case_decide as HltS; [|done].
  destruct (dict_get af start) as [succs| |]; [|done..].
  apply (dfs_loop_frame fuel af start IH) in Hrun;
    [|by apply list_lookup_insert_eq].
  destruct Hrun as (HlenV' & HlenS' & Hmono & Hres). cbn [fst snd] in *.
  rewrite length_insert in HlenV', HlenS'.
  assert (V' !! start = Some true) as HVstart.
  { apply Hmono. by apply list_lookup_insert_eq. }
  assert (∀ u, u ≠ start → V' !! u = <[start:=true]> V !! u →
               S' !! u = <[start:=true]> S !! u) as Hframe.
  { destruct found; [by auto|]. by destruct Hres. }
  unfold frame_post. cbn [fst snd]. split_and!; try done.
  - intros u Hu. apply Hmono.
    destruct (decide (u = start)) as [->|Hne]; [congruence|].
    by rewrite list_lookup_insert_ne.
  - intros u Heq.
    assert (u ≠ start) as Hne by congruence.
    rewrite Hframe; [by rewrite list_lookup_insert_ne| |];
      [done|by rewrite list_lookup_insert_ne].
  - destruct found.
    + rewrite Hres; [by apply list_lookup_insert_eq|].
      rewrite HVstart. symmetry. by apply list_lookup_insert_eq.
    + destruct Hres as (_ & HSstart & Hnew). intros u Hu Hu'.
      destruct (decide (u = start)) as [->|Hne]; [done|].
      apply Hnew; [by rewrite list_lookup_insert_ne|done].
Qed.

(** X4.  A call of [_dfs_cycle] at a node that is not yet visited, on lists
    of equal length whose stack marks sit on visited nodes only: when it
    returns [False] the list [stack] is exactly as before the call; when it
    returns [True] the mark [stack[start]], clear before the call, is left
    set.  In both cases [visited] has only grown and holds [start]. *)
Theorem dfs_cycle_stack fuel af start m found m' :
  m.1 !! start = Some false →
  length m.2 = length m.1 →
  (∀ u, m.2 !! u = Some true → m.1 !! u = Some true) →
  _dfs_cycle fuel af start m = Ok (found, m') →
  (∀ u, m.1 !! u = Some true → m'.1 !! u = Some true)
  ∧ m'.1 !! start = Some true
  ∧ m.2 !! start = Some false
  ∧ if found then m'.2 !! start = Some true else m'.2 = m.2.
Proof.
  intros HV Hlen Hstack Hrun.
  destruct (dfs_cycle_frame _ _ _ _ _ _ HV Hrun)
    as (HlenV' & HlenS' & Hmono & HVstart & Hframe & Hres).
  assert (∀ u, m.1 !! u = Some false → m.2 !! u = Some false) as Hclear.
  { intros u Hu. destruct (lookup_lt_is_Some_2 m.2 u) as [[] Hs]; [|..|done].
    - apply lookup_lt_Some in Hu. lia.
    - specialize (Hstack u Hs). congruence. }
  split; [done|]. split; [done|]. split; [by apply Hclear|].
  destruct found; [done|].
  apply list_eq. intros u.
  destruct (m.1 !! u) as [[]|] eqn:Hu.
  - apply Hframe. rewrite Hu. by apply Hmono.
  - destruct (m'.1 !! u) as [[]|] eqn:Hu'.
    + rewrite (Hres u Hu Hu'). symmetry. by apply Hclear.
    + apply Hframe. congruence.
    + apply lookup_ge_None in Hu'. apply lookup_lt_Some in Hu. lia.
  - apply Hframe. rewrite Hu. apply lookup_ge_None.
    apply lookup_ge_None in Hu. lia.
Qed.

Lemma dfs_cycle_stack_witness :
  let af := <[0 := [1]]> (<[1 := [0]]> (<[2 := []]> ∅)) : gmap nat (list nat) in
  let m := ([false; false; false], [false; false; false]) in
  (∀ u, m.1 !! u = Some true → [true; true; false] !! u = Some true)
  ∧ [true; true; false] !! 0 = Some true
  ∧ m.2 !! 0 = Some false
  ∧ [true; true; false] !! 0 = Some true.
Proof.
  intros af m.
  apply (dfs_cycle_stack 3 af 0 m true ([true; true; false], [true; true; false])).
  - reflexivity.
  - reflexivity.
  - intros u Hu. exfalso. destruct u as [|[|[|u]]]; discriminate.
  - vm_compute. reflexivity.
Defined.

Section Safety.

Variables (af : gmap nat (list nat)) (n : nat).
Hypothesis Hg : wf_graph n af.

Lemma dfs_loop_safe fuel start :
  (∀ arg m, length m.1 = n → length m.2 = n → arg < n →
            m.1 !! arg = Some false → unvisited_count m.1 ≤ fuel →
            ∃ found m', _dfs_cycle fuel af arg m = Ok (found, m')) →
  start < n →
  ∀ l m, Forall (λ j, j < n) l →
         length m.1 = n → length m.2 = n → unvisited_count m.1 ≤ fuel →
         ∃ found m', dfs_loop (_dfs_cycle fuel af) start l m = Ok (found, m').
Proof.
  intros IHf Hstart l. induction l as [|arg rest IHl];
    intros [V S] Hl HlenV HlenS Hcount; cbn [fst snd] in *.
  - cbn. unfold list_set. cbn [fst snd]. rewrite decide_True by lia.
    by eexists _, _.
  - apply Forall_cons in Hl as [Harg Hrest].
    cbn [dfs_loop]. unfold list_get. cbn [fst snd].
    destruct (lookup_lt_is_Some_2 V arg) as [v Hv]; [lia|].
    rewrite Hv. cbn. destruct v; cbn.
    + destruct (lookup_lt_is_Some_2 S arg) as [s Hs]; [lia|].
      rewrite Hs. cbn. destruct s; [by eexists _, _|]. by apply IHl.
    + destruct (IHf arg (V, S)) as (f1 & [V1 S1] & Hcall); try done.
      rewrite Hcall. cbn. destruct f1; [by eexists _, _|].
      destruct (dfs_cycle_frame fuel af arg (V, S) false (V1, S1) Hv Hcall)
        as (HlenV1 & HlenS1 & Hmono & _). cbn [fst snd] in *.
      apply IHl; cbn [fst snd]; [done|lia|lia|].
      etrans; [|apply Hcount]. apply unvisited_count_mono; [lia|done].
Qed.

Lemma dfs_cycle_safe_aux fuel start m :
  length m.1 = n → length m.2 = n → start < n →
  m.1 !! start = Some false → unvisited_count m.1 ≤ fuel →
  ∃ found m', _dfs_cycle fuel af start m = Ok (found, m').
Proof.
  revert start m. induction fuel as [|fuel IH];
    intros start [V S] HlenV HlenS Hstart HV Hcount; cbn [fst snd] in *.
  - pose proof (unvisited_count_insert V start HV). lia.
  - rewrite dfs_cycle_unfold. unfold list_set. cbn [fst snd].
    rewrite !decide_True by lia. cbn.
    destruct (Hg start Hstart) as (succs & Hsuccs & Hall).
    unfold dict_get. rewrite Hsuccs. cbn.
    apply (dfs_loop_safe fuel start IH Hstart); cbn [fst snd].
    + done.
    + by rewrite length_insert.
    + by rewrite length_insert.
    + pose proof (unvisited_count_insert V start HV). lia.
Qed.

End Safety.

(** X5.  On a framework whose keys are the nodes [0 .. n-1] and whose
    entries are nodes, with marker lists of length [n] of any content, a
    call of [_dfs_cycle] at an unvisited node returns: no subscript is out
    of range, and the recursion is never deeper than the number of
    unvisited nodes. *)
Theorem dfs_cycle_safe n af fuel start m :
  wf_graph n af →
  length m.1 = n → length m.2 = n → start < n →
  m.1 !! start = Some false → unvisited_count m.1 ≤ fuel →
  ∃ found m', _dfs_cycle fuel af start m = Ok (found, m').
Proof. intros Hg. by apply dfs_cycle_safe_aux. Qed.

Lemma dfs_cycle_safe_witness :
  ∃ found m',
    _dfs_cycle 2 (<[0 := [1; 2]]> (<[1 := [0]]> (<[2 := [2]]> ∅))) 1
      ([false; false; true], [false; true; true]) = Ok (found, m').
Proof.
  apply (dfs_cycle_safe 3); try reflexivity.
  - intros i Hi. destruct i as [|[|[|i]]]; [..|lia]; eexists; (split; [reflexivity|]);
      repeat constructor.
  - lia.
Defined.

(** X6.  Called with both marker lists clear, on a framework whose keys
    are the nodes [0 .. n-1] and whose entries are nodes, [_dfs_cycle]
    returns [True] exactly when a cycle can be reached from [start]. *)
Theorem dfs_cycle_clear_marks n af fuel start :
  wf_graph n af → start < n → n ≤ fuel →
  ∃ found m',
    _dfs_cycle fuel af start (replicate n false, replicate n false)
    = Ok (found, m')
    ∧ (found = true ↔ reaches_cycle af start).
Proof.
  intros Hg Hstart Hfuel.
  destruct (dfs_cycle_terminates af n Hg fuel start
              (replicate n false, replicate n false))
    as (found & [V' S'] & Hrun & Hpost).
  { destruct (top_inv_init af n) as (HlenV & HlenS & Hacy & Hstack).
    unfold dfs_pre. cbn [fst snd] in *. split_and!; try done.
    - apply lookup_replicate. by split.
    - pose proof (unvisited_count_le (replicate n false)). lia.
    - intros u Hu. left. by apply Hstack. }
  exists found, (V', S'). split; [done|].
  destruct Hpost as (HlenV' & HlenS' & Hmono & HVstart & Hacy' & Hres).
  cbn [fst snd] in *.
  destruct found; [by intuition|]. split; [done|]. intros Hrc.
  exfalso. apply (Hacy' start); cbn [fst snd]; [done| |done].
  destruct (lookup_lt_is_Some_2 S' start) as [[] Hs]; [lia| |done].
  by destruct (Hres start Hs).
Qed.

Lemma dfs_cycle_clear_marks_witness :
  ∃ found m',
    _dfs_cycle 3 (<[0 := [1]]> (<[1 := [2]]> (<[2 := [1]]> ∅))) 0
      (replicate 3 false, replicate 3 false) = Ok (found, m')
    ∧ (found = true
       ↔ reaches_cycle (<[0 := [1]]> (<[1 := [2]]> (<[2 := [1]]> ∅))) 0).
Proof.
  apply (dfs_cycle_clear_marks 3); [|lia|lia].
  intros i Hi. destruct i as [|[|[|i]]]; [..|lia]; eexists; (split; [reflexivity|]);
    repeat constructor.
Defined.

(** X7.  The score of [compute_circularity] is not a function of the graph
    alone: listing the same arguments in another order, or the same attack
    pairs in another order, can change it. *)
Theorem circularity_order_dependent :
  (∃ args args' att q q',
     args ≡ₚ args'
     ∧ compute_circularity args att [] = Ok q
     ∧ compute_circularity args' att [] = Ok q'
     ∧ ¬ (q == q')%Q)
  ∧ (∃ args att att' q q',
       att ≡ₚ att'
       ∧ compute_circularity args att [] = Ok q
       ∧ compute_circularity args att' [] = Ok q'
       ∧ ¬ (q == q')%Q).
Proof.
  split.
  - exists ["A"; "B"; "C"], ["C"; "A"; "B"], [("A", "B"); ("B", "A"); ("C", "A")],
      (2 # 3)%Q, (1 # 3)%Q.
    split_and!; [|by vm_compute..].
    change ["C"; "A"; "B"] with (["C"] ++ ["A"; "B"]).
    change ["A"; "B"; "C"] with (["A"; "B"] ++ ["C"]).
    apply Permutation_app_comm.
  - exists ["A"; "B"; "C"],
      [("A", "B"); ("A", "C"); ("B", "A"); ("C", "B")],
      [("A", "C"); ("A", "B"); ("B", "A"); ("C", "B")], (2 # 3)%Q, (1 # 3)%Q.
    split_and!; [|by vm_compute..].
    apply perm_swap.
Qed.

(** ** Acceptability: outcomes, range and the order of the attack pairs *)

Lemma acceptability_raise args att yhat :
  wf_edges args att → yhat_attacked yhat att = true →
  ¬ (∀ a, a ∈ yhat → a ∈ args) →
  compute_dialectical_acceptability args att yhat = Raise ValueError.
Proof.
  intros Hwf Hatt Hbad. unfold compute_dialectical_acceptability.
  destruct (attack_loop_Ok args yhat att Hwf) as (af & -> & Hk & Haf).
  unbind. rewrite Hatt. cbn [negb].
  by rewrite (score_loop_bad args att af Hwf Haf).
Qed.

Lemma members_dec (args yhat : list string) :
  {∀ a, a ∈ yhat → a ∈ args} + {¬ ∀ a, a ∈ yhat → a ∈ args}.
Proof.
  destruct (decide (Forall (λ a, a ∈ args) yhat)) as [H|H];
    [left|right]; by rewrite <- Forall_forall.
Qed.

(** X8.  [compute_dialectical_acceptability] raises [ValueError] exactly
    when a member of an attack pair is not in [args], or some member of
    [args_y_hat] is attacked and some member of [args_y_hat] is not in
    [args]; it raises nothing else, in particular it never divides by
    zero. *)
Theorem acceptability_outcome args att yhat :
  (compute_dialectical_acceptability args att yhat = Raise ValueError
   ↔ ¬ wf_edges args att
     ∨ ((∃ a, a ∈ yhat ∧ attackers_of att a ≠ [])
        ∧ ¬ ∀ a, a ∈ yhat → a ∈ args))
  ∧ (∀ e, compute_dialectical_acceptability args att yhat = Raise e →
          e = ValueError)
  ∧ compute_dialectical_acceptability args att yhat ≠ OutOfFuel.
Proof.
  destruct (decide (wf_edges args att)) as [Hwf|Hbad].
  - destruct (yhat_attacked yhat att) eqn:Hatt.
    + destruct (members_dec args yhat) as [Hy|Hy].
      * destruct (acceptability_Ok args att yhat Hwf Hy Hatt) as (q & -> & _).
        split; [|done]. split; [done|]. intros [?|[_ ?]]; done.
      * rewrite (acceptability_raise _ _ _ Hwf Hatt Hy).
        split; [|split; [by intros e [= <-]|done]].
        split; [|done]. intros _. right. split; [|done].
        by apply yhat_attacked_true.
    + unfold compute_dialectical_acceptability.
      destruct (attack_loop_Ok args yhat att Hwf) as (af & -> & _).
      unbind. rewrite Hatt. cbn [negb].
      split; [|done]. split; [done|]. intros [?|[H%yhat_attacked_true _]]; [done|].
      congruence.
  - unfold compute_dialectical_acceptability.
    rewrite attack_loop_bad by done.
    split; [|split; [by intros e [= <-]|done]].
    split; [|done]. intros _. by left.
Qed.

Lemma acceptability_outcome_witness :
  compute_dialectical_acceptability ["A"; "B"] [("A", "B")] ["B"; "Z"]
  = Raise ValueError.
Proof.
  apply (proj1 (acceptability_outcome ["A"; "B"] [("A", "B")] ["B"; "Z"])).
  right. split.
  - exists "B"%string. split; [left|]. vm_compute. discriminate.
  - intros H. specialize (H "Z"%string). apply list_elem_of_In in H.
    + cbn in H. intuition congruence.
    + right. left.
Defined.

Lemma local_acceptability_range att a :
  (0 <= local_acceptability att a)%Q ∧ (local_acceptability att a <= 1)%Q.
Proof.
  unfold local_acceptability.
  destruct (attackers_of att a) as [|b l] eqn:E; [done|].
  apply Qmake_unit_interval; [done|]. apply length_filter.
Qed.

Lemma sum_local_acceptability_range att (yhat : list string) :
  (0 <= foldr Qplus 0 (local_acceptability att <$> yhat))%Q
  ∧ (foldr Qplus 0 (local_acceptability att <$> yhat)
     <= Z.of_nat (length yhat) # 1)%Q.
Proof.
  induction yhat as [|a yhat [IH0 IH1]]; [done|].
  destruct (local_acceptability_range att a) as [H0 H1].
  cbn [fmap list_fmap foldr length]. split.
  - replace 0%Q with (0 + 0)%Q by done. by apply Qplus_le_compat.
  - assert ((Z.of_nat (S (length yhat)) # 1) == 1 + (Z.of_nat (length yhat) # 1))%Q
      as ->.
    { unfold Qeq, Qplus. cbn [Qnum Qden]. lia. }
    by apply Qplus_le_compat.
Qed.

(** X9.  Every value [compute_dialectical_acceptability] returns is at
    least 0, and at most 1 when [args_y_hat] has no repeated member. *)
Theorem acceptability_range args att yhat q :
  compute_dialectical_acceptability args att yhat = Ok q →
  (0 <= q)%Q ∧ (NoDup yhat → (q <= 1)%Q).
Proof.
  intros Hq.
  destruct (decide (wf_edges args att)) as [Hwf|Hbad]; cycle 1.
  { unfold compute_dialectical_acceptability in Hq.
    by rewrite attack_loop_bad in Hq. }
  destruct (yhat_attacked yhat att) eqn:Hatt; cycle 1.
  { unfold compute_dialectical_acceptability in Hq.
    destruct (attack_loop_Ok args yhat att Hwf) as (af & Hloop & _).
    rewrite Hloop in Hq. unbind. rewrite Hatt in Hq. cbn [negb] in Hq.
    injection Hq as <-. done. }
  destruct (members_dec args yhat) as [Hy|Hy];
    [|by rewrite (acceptability_raise _ _ _ Hwf Hatt Hy) in Hq].
  destruct (acceptability_Ok args att yhat Hwf Hy Hatt) as (q' & Hq' & Heq).
  assert (q' = q) as -> by congruence. clear Hq Hq'.
  apply yhat_attacked_true in Hatt as (a & Ha & _).
  assert (0 < Z.of_nat (length args) # 1)%Q as Hpos.
  { specialize (Hy a Ha). destruct args; [by apply elem_of_nil in Hy|].
    unfold Qlt. cbn. lia. }
  destruct (sum_local_acceptability_range att yhat) as [H0 H1].
  rewrite Heq. unfold acceptability. split.
  - apply Qle_shift_div_l; [done|]. by rewrite Qmult_0_l.
  - intros Hnodup. apply Qle_shift_div_r; [done|]. rewrite Qmult_1_l.
    eapply Qle_trans; [apply H1|]. unfold Qle. cbn [Qnum Qden].
    assert (length yhat ≤ length args); [|lia].
    apply submseteq_length, NoDup_submseteq; [done|]. intros x Hx. by apply Hy.
Qed.

Lemma acceptability_range_witness :
  (0 <= 1 # 8)%Q ∧ (NoDup ["A"] → (1 # 8 <= 1)%Q).
Proof.
  apply (acceptability_range ["A"; "B"; "C"; "D"]
           [("B", "A"); ("C", "A"); ("D", "C")] ["A"]).
  vm_compute. reflexivity.
Defined.

Lemma attackers_of_perm att att' a :
  att ≡ₚ att' → attackers_of att a ≡ₚ attackers_of att' a.
Proof. intros H. unfold attackers_of. by rewrite H. Qed.

Lemma local_acceptability_perm att att' a :
  att ≡ₚ att' → local_acceptability att a = local_acceptability att' a.
Proof.
  intros H. unfold local_acceptability.
  pose proof (attackers_of_perm att att' a H) as Ha.
  assert (∀ b, attackers_of att b ≠ [] ↔ attackers_of att' b ≠ []) as Hne.
  { intros b. pose proof (attackers_of_perm att att' b H) as Hb.
    split; intros Hn E; apply Hn.
    - rewrite E in Hb. by apply Permutation_nil_r in Hb.
    - rewrite E in Hb. by apply Permutation_nil_l in Hb. }
  rewrite (list_filter_iff _ (λ b, attackers_of att' b ≠ []) _ Hne).
  destruct (attackers_of att a) as [|b l] eqn:E,
           (attackers_of att' a) as [|b' l'] eqn:E'.
  - done.
  - by apply Permutation_nil_l in Ha.
  - by apply Permutation_nil_r in Ha.
  - by rewrite Ha.
Qed.

Lemma score_loop_ext args args' af af' yhat score :
  (∀ a, a ∈ yhat → local_score args af a = local_score args' af' a) →
  score_loop args af yhat score = score_loop args' af' yhat score.
Proof.
  revert score. induction yhat as [|a yhat IH]; intros score H; [done|].
  cbn [score_loop]. rewrite (H a) by left. unbind.
  destruct (local_score args' af' a); [|done..].
  apply IH. intros b Hb. apply H. by right.
Qed.

(** X10.  The outcome of [compute_dialectical_acceptability] (the score or
    the exception) does not depend on the order of the attack pairs. *)
Theorem acceptability_attack_order args att att' yhat :
  att ≡ₚ att' →
  compute_dialectical_acceptability args att yhat
  = compute_dialectical_acceptability args att' yhat.
Proof.
  intros Hperm.
  assert (wf_edges args att ↔ wf_edges args att') as Hwfiff.
  { unfold wf_edges. split; intros H p Hp; apply H; by rewrite ?Hperm in *. }
  assert (yhat_attacked yhat att = yhat_attacked yhat att') as Hflag.
  { assert (yhat_attacked yhat att = true ↔ yhat_attacked yhat att' = true) as Hiff.
    { rewrite !yhat_attacked_true. split; intros (a & Ha & Hn); exists a;
        (split; [done|]); intros E; apply Hn.
      - pose proof (attackers_of_perm att att' a Hperm) as Hp.
        rewrite E in Hp. by apply Permutation_nil_r in Hp.
      - pose proof (attackers_of_perm att att' a Hperm) as Hp.
        rewrite E in Hp. by apply Permutation_nil_l in Hp. }
    destruct (yhat_attacked yhat att), (yhat_attacked yhat att'); try done.
    - symmetry. by apply Hiff.
    - by apply Hiff. }
  unfold compute_dialectical_acceptability.
  destruct (decide (wf_edges args att)) as [Hwf|Hbad]; cycle 1.
  { rewrite !attack_loop_bad; [done| |done]. by rewrite <- Hwfiff. }
  pose proof (proj1 Hwfiff Hwf) as Hwf'.
  destruct (attack_loop_Ok args yhat att Hwf) as (af & -> & _ & Haf).
  destruct (attack_loop_Ok args yhat att' Hwf') as (af' & -> & _ & Haf').
  unbind. rewrite <- Hflag. destruct (yhat_attacked yhat att); [|done].
  cbn [negb]. rewrite (score_loop_ext args args af af'); [done|].
  intros a _. destruct (decide (a ∈ args)) as [Ha|Ha].
  - rewrite (local_score_Ok args att af Hwf Haf a Ha).
    rewrite (local_score_Ok args att' af' Hwf' Haf' a Ha).
    by rewrite (local_acceptability_perm att att').
  - by rewrite !local_score_bad.
Qed.

Lemma acceptability_attack_order_witness :
  compute_dialectical_acceptability ["A"; "B"; "C"]
    [("B", "A"); ("C", "B")] ["A"]
  = compute_dialectical_acceptability ["A"; "B"; "C"]
      [("C", "B"); ("B", "A")] ["A"].
Proof.
  apply acceptability_attack_order. apply perm_swap.
Defined.

(** ** Faithfulness: which inputs matter *)

Lemma faithfulness_false_iff args att sup yhat top high label conf :
  compute_dialectical_faithfulness args att sup yhat top high label conf = false
  ↔ ∃ arg attacker,
      arg ∈ arguments_for_predicted yhat label
      ∧ attacker_of args att attacker arg
      ∧ tier_violation top high conf attacker arg = true.
Proof.
  unfold compute_dialectical_faithfulness, tier_violation.
  fold (arguments_for_predicted yhat label).
  destruct (ge_float conf top); [|destruct (ge_float conf high)];
    rewrite outer_loop_false; split.
  - intros (arg & Harg & (attacker & Hatt & Hv)%attacker_loop_true). eauto.
  - intros (arg & attacker & Harg & Hatt & Hv). exists arg. split; [done|].
    apply attacker_loop_true. eauto.
  - intros (arg & Harg & (attacker & Hatt & Hv)%attacker_loop_true). eauto.
  - intros (arg & attacker & Harg & Hatt & Hv). exists arg. split; [done|].
    apply attacker_loop_true. eauto.
  - intros (arg & Harg & Hbody).
    destruct (gt_float (get_dialectical_strength arg) (1 # 2)) eqn:Hgt; [|done].
    apply attacker_loop_true in Hbody as (attacker & Hatt & Hv).
    exists arg, attacker. unfold get_dialectical_strength in *.
    by rewrite Hgt, Hv.
  - intros (arg & attacker & Harg & Hatt & [Hgt Hv]%andb_true_iff).
    exists arg. split; [done|]. unfold get_dialectical_strength at 1.
    rewrite Hgt. apply attacker_loop_true. eauto.
Qed.

Lemma faithfulness_true_iff args att sup yhat top high label conf :
  compute_dialectical_faithfulness args att sup yhat top high label conf = true
  ↔ ∀ arg attacker,
      arg ∈ arguments_for_predicted yhat label →
      attacker_of args att attacker arg →
      tier_violation top high conf attacker arg = false.
Proof.
  destruct (compute_dialectical_faithfulness args att sup yhat top high label conf)
    eqn:E.
  - split; [|done]. intros _ arg attacker Harg Hatt.
    destruct (tier_violation top high conf attacker arg) eqn:Hv; [|done].
    assert (compute_dialectical_faithfulness args att sup yhat top high label conf
            = false) as E'; [|congruence].
    apply faithfulness_false_iff. eauto.
  - split; [done|]. intros H.
    apply faithfulness_false_iff in E as (arg & attacker & Harg & Hatt & Hv).
    rewrite (H arg attacker Harg Hatt) in Hv. done.
Qed.

(** X11.  Whatever the tier, [compute_dialectical_faithfulness] returns
    [True] when there is no attack pair, and when no member of
    [args_y_hat] has the predicted label as its conclusion. *)
Theorem faithfulness_nothing_to_check args sup yhat top high label conf :
  compute_dialectical_faithfulness args [] sup yhat top high label conf = true
  ∧ ∀ att,
      (∀ arg, arg ∈ yhat → arg_conclusion arg ≠ label) →
      compute_dialectical_faithfulness args att sup yhat top high label conf
      = true.
Proof.
  split.
  - apply faithfulness_true_iff. intros arg attacker _ [_ H].
    by apply elem_of_nil in H.
  - intros att Hnone. apply faithfulness_true_iff.
    intros arg attacker [Hc Harg]%list_elem_of_filter _.
    by destruct (Hnone arg Harg).
Qed.

Lemma faithfulness_nothing_to_check_witness :
  compute_dialectical_faithfulness [mk_argument 1 "yes" 1; mk_argument 2 "no" 1]
    [(2, 1)%Z] [] [mk_argument 1 "yes" 1] (9 # 10) (6 # 10) "no" 1 = true.
Proof.
  apply (proj2 (faithfulness_nothing_to_check
                  [mk_argument 1 "yes" 1; mk_argument 2 "no" 1] []
                  [mk_argument 1 "yes" 1] (9 # 10) (6 # 10) "no" 1)).
  intros arg Harg. apply list_elem_of_In in Harg. cbn in Harg.
  destruct Harg as [<-|[]]. discriminate.
Defined.

(** X12.  An explanation that is faithful at the top tier is faithful at
    the high tier: if the call returns [True] for a confidence
    [>= top_confidence], it returns [True] on the same arguments and
    attacks for every confidence in [[high_confidence, top_confidence)]. *)
Theorem faithfulness_top_implies_high
    args att sup yhat top high label conf_top conf_high :
  (top <= conf_top)%Q → (high <= conf_high)%Q → (conf_high < top)%Q →
  compute_dialectical_faithfulness args att sup yhat top high label conf_top
  = true →
  compute_dialectical_faithfulness args att sup yhat top high label conf_high
  = true.
Proof.
  intros Htop%ge_float_true Hhigh%ge_float_true Hlt%ge_float_false.
  rewrite !faithfulness_true_iff. intros H arg attacker Harg Hatt.
  specialize (H arg attacker Harg Hatt). unfold tier_violation in *.
  rewrite Htop in H. rewrite Hlt, Hhigh.
  apply ge_float_false in H. apply gt_float_false. by apply Qlt_le_weak.
Qed.

Lemma faithfulness_top_implies_high_witness :
  compute_dialectical_faithfulness
    [mk_argument 1 "yes" (8 # 10); mk_argument 2 "no" (3 # 10)]
    [(2, 1)%Z] [] [mk_argument 1 "yes" (8 # 10)] (9 # 10) (6 # 10) "yes" (7 # 10)
  = true.
Proof.
  apply (faithfulness_top_implies_high _ _ _ _ _ _ _ 1%Q).
  - vm_compute. discriminate.
  - vm_compute. discriminate.
  - vm_compute. reflexivity.
  - vm_compute. reflexivity.
Defined.

(** X13.  More arguments, more attack pairs or more members of
    [args_y_hat] can only turn the result from [True] to [False]: if the
    call returns [False], it still does after any of the three lists has
    been extended. *)
Theorem faithfulness_antitone
    args args' att att' sup sup' yhat yhat' top high label conf :
  (∀ a, a ∈ args → a ∈ args') →
  (∀ e, e ∈ att → e ∈ att') →
  (∀ a, a ∈ yhat → a ∈ yhat') →
  compute_dialectical_faithfulness args att sup yhat top high label conf = false →
  compute_dialectical_faithfulness args' att' sup' yhat' top high label conf
  = false.
Proof.
  intros Hargs Hatt Hyhat. rewrite !faithfulness_false_iff.
  intros (arg & attacker & [Hc Harg]%list_elem_of_filter & [Ha He] & Hv).
  exists arg, attacker. split; [|split; [|done]].
  - apply list_elem_of_filter. auto.
  - split; auto.
Qed.

Lemma faithfulness_antitone_witness :
  compute_dialectical_faithfulness
    [mk_argument 1 "yes" (1 # 2); mk_argument 2 "no" (1 # 2); mk_argument 3 "no" 0]
    [(3, 1)%Z; (2, 1)%Z] [] [mk_argument 1 "yes" (1 # 2)] (9 # 10) (6 # 10)
    "yes" 1 = false.
Proof.
  apply (faithfulness_antitone
           [mk_argument 1 "yes" (1 # 2); mk_argument 2 "no" (1 # 2)] _
           [(2, 1)%Z] _ [] [] [mk_argument 1 "yes" (1 # 2)]).
  - intros a Ha. apply list_elem_of_In in Ha. apply list_elem_of_In.
    cbn in *. intuition.
  - intros e He. apply list_elem_of_In in He. apply list_elem_of_In.
    cbn in *. intuition.
  - auto.
  - vm_compute. reflexivity.
Defined.

Lemma bool_eq_false_iff (b c : bool) : (b = false ↔ c = false) → b = c.
Proof. destruct b, c; intuition. Qed.

(** X14.  An attack pair whose first member is not the id of an element of
    [args], or whose second member is not the id of an argument of
    [args_y_hat] with the predicted label, is passed over without any
    error: the result is the same with and without it. *)
Theorem faithfulness_dangling_pair args e att sup yhat top high label conf :
  e.1 ∉ arg_id <$> args
  ∨ e.2 ∉ arg_id <$> arguments_for_predicted yhat label →
  compute_dialectical_faithfulness args (e :: att) sup yhat top high label conf
  = compute_dialectical_faithfulness args att sup yhat top high label conf.
Proof.
  intros Hdangling. apply bool_eq_false_iff. rewrite !faithfulness_false_iff.
  split; intros (arg & attacker & Harg & [Ha He] & Hv); exists arg, attacker;
    (split; [done|]); (split; [|done]); (split; [done|]).
  - apply elem_of_cons in He as [He|He]; [|done]. exfalso.
    destruct Hdangling as [Hd|Hd]; apply Hd; rewrite <- He; cbn [fst snd];
      apply list_elem_of_fmap; eauto.
  - by right.
Qed.

Lemma faithfulness_dangling_pair_witness :
  compute_dialectical_faithfulness
    [mk_argument 1 "yes" (1 # 2); mk_argument 2 "no" (1 # 3)]
    [(7, 1)%Z; (2, 1)%Z] [] [mk_argument 1 "yes" (1 # 2)] (9 # 10) (6 # 10)
    "yes" 1
  = compute_dialectical_faithfulness
      [mk_argument 1 "yes" (1 # 2); mk_argument 2 "no" (1 # 3)]
      [(2, 1)%Z] [] [mk_argument 1 "yes" (1 # 2)] (9 # 10) (6 # 10) "yes" 1.
Proof.
  apply faithfulness_dangling_pair. left. cbn.
  intros H. apply list_elem_of_In in H. cbn in H. intuition congruence.
Defined.

Lemma get_arguments_for_conclusion_idem args conclusion :
  get_arguments_for_conclusion (get_arguments_for_conclusion args conclusion)
    conclusion
  = get_arguments_for_conclusion args conclusion.
Proof.
  unfold get_arguments_for_conclusion. rewrite list_filter_filter.
  apply list_filter_iff. tauto.
Qed.

(** X15.  [get_arguments_for_conclusion] returns exactly the arguments
    with the given conclusion, in their order and as often as they occur:
    the result is a sublist of the input, all its elements have the
    conclusion, and what it leaves out are elements with another
    conclusion.  [compute_dialectical_faithfulness] applies the same
    selection to [args_y_hat] itself: passing [args_y_hat] or
    [get_arguments_for_conclusion(args_y_hat, label)] gives the same
    result. *)
Theorem faithfulness_selects_label args att sup yhat top high label conf :
  get_arguments_for_conclusion yhat label `sublist_of` yhat
  ∧ Forall (λ arg, arg_conclusion arg = label)
           (get_arguments_for_conclusion yhat label)
  ∧ (∃ rest,
       Forall (λ arg, arg_conclusion arg ≠ label) rest
       ∧ yhat ≡ₚ get_arguments_for_conclusion yhat label ++ rest)
  ∧ compute_dialectical_faithfulness args att sup
      (get_arguments_for_conclusion yhat label) top high label conf
    = compute_dialectical_faithfulness args att sup yhat top high label conf.
Proof.
  split; [apply sublist_filter|]. split; [|split].
  - apply Forall_forall. by intros arg [H _]%list_elem_of_filter.
  - exists (filter (λ arg, ¬ arg_conclusion arg = label) yhat). split.
    + apply Forall_forall. by intros arg [H _]%list_elem_of_filter.
    + symmetry. apply filter_app_complement.
  - unfold compute_dialectical_faithfulness.
    fold (get_arguments_for_conclusion
            (get_arguments_for_conclusion yhat label) label).
    by rewrite get_arguments_for_conclusion_idem.
Qed.

(** X16.  The outcome of [compute_dialectical_acceptability] does not
    depend on the order in which [args] lists the arguments (unlike the
    score of [compute_circularity]). *)
Theorem acceptability_args_order args args' att yhat :
  args ≡ₚ args' →
  compute_dialectical_acceptability args att yhat
  = compute_dialectical_acceptability args' att yhat.
Proof.
  intros Hperm.
  assert (∀ a, a ∈ args ↔ a ∈ args') as Hin by (intros a; by rewrite Hperm).
  assert (wf_edges args att ↔ wf_edges args' att) as Hwfiff.
  { unfold wf_edges. split; intros H p Hp; destruct (H p Hp);
      split; by apply Hin. }
  unfold compute_dialectical_acceptability.
  destruct (decide (wf_edges args att)) as [Hwf|Hbad]; cycle 1.
  { rewrite !attack_loop_bad; [done| |done]. by rewrite <- Hwfiff. }
  pose proof (proj1 Hwfiff Hwf) as Hwf'.
  destruct (attack_loop_Ok args yhat att Hwf) as (af & -> & _ & Haf).
  destruct (attack_loop_Ok args' yhat att Hwf') as (af' & -> & _ & Haf').
  unbind. destruct (yhat_attacked yhat att); [|done].
  cbn [negb]. rewrite (score_loop_ext args args' af af').
  - destruct (score_loop args' af' yhat 0); [|done..].
    by rewrite (Permutation_length Hperm).
  - intros a _. destruct (decide (a ∈ args)) as [Ha|Ha].
    + rewrite (local_score_Ok args att af Hwf Haf a Ha).
      rewrite (local_score_Ok args' att af' Hwf' Haf' a); [done|].
      by apply Hin.
    + rewrite !local_score_bad; [done| |done]. by rewrite <- Hin.
Qed.

Lemma acceptability_args_order_witness :
  compute_dialectical_acceptability ["A"; "B"; "C"] [("B", "A"); ("C", "B")] ["A"]
  = compute_dialectical_acceptability ["B"; "A"; "C"] [("B", "A"); ("C", "B")]
      ["A"].
Proof.
  apply acceptability_args_order. apply perm_swap.
Defined.

(** X17.  What [_dfs_cycle] does outside the range of its lists: a [start]
    beyond the end of [visited] or of [stack] raises [IndexError], a
    [start] in range that is not a key of the framework raises [KeyError],
    and a first successor beyond the end of [visited] raises
    [IndexError]. *)
Theorem dfs_cycle_out_of_range fuel af start m :
  (length m.1 ≤ start → _dfs_cycle (S fuel) af start m = Raise IndexError)
  ∧ (length m.2 ≤ start → _dfs_cycle (S fuel) af start m = Raise IndexError)
  ∧ (start < length m.1 → start < length m.2 → af !! start = None →
     _dfs_cycle (S fuel) af start m = Raise KeyError)
  ∧ (∀ arg rest,
       start < length m.1 → start < length m.2 →
       af !! start = Some (arg :: rest) → length m.1 ≤ arg →
       _dfs_cycle (S fuel) af start m = Raise IndexError).
Proof.
  rewrite dfs_cycle_unfold. unfold list_set, dict_get.
  split; [|split; [|split]].
  - intros H. destruct (decide (start < length m.1)); [lia|done].
  - intros H. destruct (decide (start < length m.1)); [|done]. cbn.
    destruct (decide (start < length m.2)); [lia|done].
  - intros H1 H2 ->.
    destruct (decide (start < length m.1)); [|lia]. cbn.
    destruct (decide (start < length m.2)); [done|lia].
  - intros arg rest H1 H2 -> Harg.
    destruct (decide (start < length m.1)); [|lia]. cbn.
    destruct (decide (start < length m.2)); [|lia]. cbn.
    unfold list_get. cbn [fst snd].
    assert (<[start:=true]> m.1 !! arg = None) as ->; [|done].
    apply lookup_ge_None. rewrite length_insert. lia.
Qed.

Lemma dfs_cycle_out_of_range_witness :
  _dfs_cycle 5 (<[0 := [7]]> ∅) 0 ([false], [false]) = Raise IndexError.
Proof.
  apply (proj2 (proj2 (proj2 (dfs_cycle_out_of_range 4 (<[0 := [7]]> ∅) 0
                                ([false], [false])))) 7 []); cbn; try lia.
  reflexivity.
Defined.

(** ** Support pairs in the score *)

Lemma framework_edge args att sup af u v :
  framework args att sup = Ok af →
  edge af u v
  ↔ ∃ p, p ∈ att ++ sup ∧ u = pos args p.1 ∧ v = pos args p.2.
Proof.
  intros Haf.
  assert (wf_edges args (att ++ sup)) as Hwf.
  { destruct (decide (wf_edges args (att ++ sup))) as [Hwf|Hbad]; [done|].
    by rewrite (framework_bad _ _ _ Hbad) in Haf. }
  unfold edge. rewrite (framework_lookup _ _ _ _ u Haf). split.
  - intros (l & Hl & Hv). case_decide; [|done]. injection Hl as <-.
    unfold edges_from in Hv.
    apply list_elem_of_fmap in Hv as (p & -> & [Hp Hin]%list_elem_of_filter).
    by exists p.
  - intros (p & Hin & -> & ->). rewrite decide_True.
    + eexists. split; [done|]. unfold edges_from.
      apply list_elem_of_fmap. exists p. split; [done|].
      by apply list_elem_of_filter.
    + apply pos_lt. by destruct (Hwf p Hin).
Qed.

Lemma circularity_score_zero args att sup :
  args ≠ [] → wf_edges args (att ++ sup) →
  ∃ af score,
    framework args att sup = Ok af
    ∧ compute_circularity args att sup
      = Ok (Z.of_nat score # Pos.of_nat (length args))
    ∧ (score = 0 ↔ ∀ r, r < length args → ¬ reaches_cycle af r).
Proof.
  intros Hne Hwf.
  destruct (framework_Ok _ _ _ Hwf) as (af & Haf & _ & Hl).
  pose proof (framework_wf_graph _ _ _ Hwf Hl) as Hg.
  destruct (circularity_loop_zero af (length args) Hg (seq 0 (length args))
              (replicate (length args) false, replicate (length args) false) 0)
    as (score & Hloop & Hiff).
  { apply Forall_forall. intros j Hj%elem_of_seq. lia. }
  { apply top_inv_init. }
  { cbn [snd]. by intros _ u [? _]%lookup_replicate. }
  exists af, score. split; [done|]. split.
  - rewrite compute_circularity_framework, Haf.
    unfold mbind, outcome_bind, bind. rewrite Hloop.
    destruct args; [done|]. reflexivity.
  - rewrite Hiff. split.
    + intros [_ H] r Hr. apply H, elem_of_seq. lia.
    + intros H. split; [done|]. intros r Hr%elem_of_seq. apply H. lia.
Qed.

Lemma tc_ends {A} (R : relation A) x y :
  tc R x y → (∃ z, R x z) ∧ (∃ z, R z y).
Proof.
  induction 1 as [x y HR|x z y HR Htc [_ IH]]; split; eauto.
Qed.

(** C7.  A support pair [(supported, supporter)] is an edge from
    [supported] to [supporter] of the graph on which [compute_circularity]
    computes its score, exactly as an attack pair is an edge from attacker
    to attacked, and the graph has no other edge.  The call gives the same
    outcome when the support pairs are passed as further attack pairs, and
    a support pair [(A, B)] with the attack [B -> A] gives the same outcome
    as the two attacks [A -> B], [B -> A]: a positive score, the cycle
    being found, whereas the support pair [(B, A)] with the attack
    [B -> A] closes no cycle and scores 0. *)
Theorem circularity_support_reversed :
  (∀ args att sup,
     args ≠ [] → wf_edges args (att ++ sup) →
     ∃ af roots,
       framework args att sup = Ok af
       ∧ (∀ supported supporter,
            (supported, supporter) ∈ sup →
            edge af (pos args supported) (pos args supporter))
       ∧ (∀ attacker attacked,
            (attacker, attacked) ∈ att →
            edge af (pos args attacker) (pos args attacked))
       ∧ (∀ u v, edge af u v →
            ∃ p, p ∈ att ++ sup ∧ u = pos args p.1 ∧ v = pos args p.2)
       ∧ root_invocations (length args) af (seq 0 (length args))
           (replicate (length args) false, replicate (length args) false)
         = Ok roots
       ∧ (∀ r found, (r, found) ∈ roots → found = true ↔ reaches_cycle af r)
       ∧ compute_circularity args att sup
         = Ok (Z.of_nat (length (filter (λ r, r.2 = true) roots))
               # Pos.of_nat (length args)))
  ∧ (∀ args att sup,
       compute_circularity args att sup = compute_circularity args (att ++ sup) [])
  ∧ (∀ args A B,
       compute_circularity args [(B, A)] [(A, B)]
       = compute_circularity args [(A, B); (B, A)] [])
  ∧ (∀ args A B,
       A ∈ args → B ∈ args →
       ∃ q, compute_circularity args [(B, A)] [(A, B)] = Ok q ∧ (0 < q)%Q)
  ∧ (∀ args A B,
       A ∈ args → B ∈ args → A ≠ B →
       returns (compute_circularity args [(B, A)] [(B, A)]) 0).
Proof.
  split; [|split; [|split; [|split]]].
  - intros args att sup Hne Hwf.
    destruct (circularity_roots args att sup Hne Hwf)
      as (af & roots & Haf & _ & Hroots & Hspec & Hscore).
    exists af, roots. split; [done|]. split; [|split; [|split; [|split; [|split]]]].
    + intros s t Hin. apply (framework_edge _ _ _ _ _ _ Haf).
      exists (s, t). split; [|done]. apply elem_of_app. by right.
    + intros s t Hin. apply (framework_edge _ _ _ _ _ _ Haf).
      exists (s, t). split; [|done]. apply elem_of_app. by left.
    + intros u v He. by apply (framework_edge _ _ _ _ _ _ Haf).
    + done.
    + intros r found Hin. by destruct (Hspec r found Hin).
    + done.
  - apply circularity_support_as_attack.
  - apply circularity_mutual_pair.
  - intros args A B HA HB.
    assert (wf_edges args ([(B, A)] ++ [(A, B)])) as Hwf.
    { intros p [->|[->|[]%elem_of_nil]%elem_of_cons]%elem_of_cons; done. }
    destruct (circularity_score_zero args [(B, A)] [(A, B)])
      as (af & score & Haf & -> & Hzero); [|done|].
    { intros ->. by apply elem_of_nil in HA. }
    eexists. split; [done|].
    assert (score ≠ 0) as Hpos.
    { intros H0. apply (proj1 Hzero H0 (pos args A)); [by apply pos_lt|].
      exists (pos args A). split; [done|].
      apply tc_l with (pos args B); [|apply tc_once].
      - apply (framework_edge _ _ _ _ _ _ Haf). exists (A, B).
        split; [|done]. right. left.
      - apply (framework_edge _ _ _ _ _ _ Haf). exists (B, A).
        split; [|done]. left. }
    unfold Qlt. cbn [Qnum Qden]. lia.
  - intros args A B HA HB Hne.
    assert (wf_edges args ([(B, A)] ++ [(B, A)])) as Hwf.
    { intros p [->|[->|[]%elem_of_nil]%elem_of_cons]%elem_of_cons; done. }
    destruct (circularity_score_zero args [(B, A)] [(B, A)])
      as (af & score & Haf & -> & Hzero); [|done|].
    { intros ->. by apply elem_of_nil in HA. }
    eexists. split; [done|].
    assert (score = 0) as ->; [|done].
    apply Hzero. intros r _ (v & _ & Hc).
    destruct (tc_ends _ _ _ Hc) as [[w Hout] [w' Hin]].
    apply (framework_edge _ _ _ _ _ _ Haf) in Hout as (p & Hp & Hv & _).
    apply (framework_edge _ _ _ _ _ _ Haf) in Hin as (p' & Hp' & _ & Hv').
    assert (p = (B, A)) as ->.
    { by apply elem_of_cons in Hp as [->|[->|[]%elem_of_nil]%elem_of_cons]. }
    assert (p' = (B, A)) as ->.
    { by apply elem_of_cons in Hp' as [->|[->|[]%elem_of_nil]%elem_of_cons]. }
    cbn [fst snd] in *. apply Hne. apply (pos_inj args); congruence.
Qed.

Lemma circularity_support_reversed_witness :
  (∃ q, compute_circularity ["A"; "B"; "C"] [("B", "A")] [("A", "B")] = Ok q
        ∧ (0 < q)%Q)
  ∧ returns (compute_circularity ["A"; "B"; "C"] [("B", "A")] [("B", "A")]) 0
  ∧ ∃ af (roots : list (nat * bool)),
      framework ["A"; "B"; "C"] [("B", "A")] [("A", "B")] = Ok af
      ∧ edge af (pos ["A"; "B"; "C"] "A") (pos ["A"; "B"; "C"] "B")
      ∧ compute_circularity ["A"; "B"; "C"] [("B", "A")] [("A", "B")]
        = Ok (Z.of_nat (length (filter (λ r, r.2 = true) roots)) # 3).
Proof.
  destruct circularity_support_reversed as (Hgraph & _ & _ & Hcycle & Hnone).
  assert ("A" ∈ ["A"; "B"; "C"]) as HA by left.
  assert ("B" ∈ ["A"; "B"; "C"]) as HB by (right; left).
  split; [by apply Hcycle|]. split; [by apply Hnone|].
  destruct (Hgraph ["A"; "B"; "C"] [("B", "A")] [("A", "B")])
    as (af & roots & Haf & Hsup & _ & _ & _ & _ & Hscore).
  - discriminate.
  - apply (bool_decide_unpack _). vm_compute. reflexivity.
  - exists af, roots. split; [done|]. split; [|done]. apply Hsup. left.
Defined.

(** ** Circularity under a recursion limit *)

Lemma dfs_loop_fuel_mono
    (rec rec' : nat → marks → outcome (bool * marks)) start l m r :
  (∀ arg m r, rec arg m = Ok r → rec' arg m = Ok r) →
  dfs_loop rec start l m = Ok r → dfs_loop rec' start l m = Ok r.
Proof.
  intros Hrec. revert m. induction l as [|arg rest IH]; intros m; [done|].
  cbn [dfs_loop]. unfold mbind, outcome_bind, bind.
  destruct (list_get m.1 arg) as [v| |]; [|done..].
  destruct (negb v).
  - destruct (rec arg m) as [[found m']| |] eqn:E; [|done..].
    rewrite (Hrec _ _ _ E). destruct found; [done|]. apply IH.
  - destruct (list_get m.2 arg) as [s| |]; [|done..].
    destruct s; [done|]. apply IH.
Qed.

Lemma dfs_cycle_fuel_mono fuel fuel' af start m r :
  fuel ≤ fuel' →
  _dfs_cycle fuel af start m = Ok r → _dfs_cycle fuel' af start m = Ok r.
Proof.
  revert fuel' start m r. induction fuel as [|fuel IH];
    intros fuel' start m r Hle; [done|].
  destruct fuel' as [|fuel']; [lia|].
  rewrite !dfs_cycle_unfold. unfold mbind, outcome_bind, bind.
  destruct (list_set m.1 start true) as [visited| |]; [|done..].
  destruct (list_set m.2 start true) as [stack| |]; [|done..].
  destruct (dict_get af start) as [succs| |]; [|done..].
  apply dfs_loop_fuel_mono. intros arg m' r'. apply IH. lia.
Qed.

Lemma circularity_loop_fuel_mono fuel fuel' af nodes m score r :
  fuel ≤ fuel' →
  circularity_loop fuel af nodes m score = Ok r →
  circularity_loop fuel' af nodes m score = Ok r.
Proof.
  intros Hle. revert m score. induction nodes as [|node rest IH];
    intros m score; [done|].
  cbn [circularity_loop]. unfold mbind, outcome_bind, bind.
  destruct (list_get m.1 node) as [v| |]; [|done..].
  destruct (negb v); [|apply IH].
  destruct (_dfs_cycle fuel af node m) as [[found m']| |] eqn:E; [|done..].
  rewrite (dfs_cycle_fuel_mono _ _ _ _ _ _ Hle E). apply IH.
Qed.

Section NoRaise.

Variables (af : gmap nat (list nat)) (n : nat).
Hypothesis Hg : wf_graph n af.

Lemma dfs_loop_no_raise fuel start :
  (∀ arg m, length m.1 = n → length m.2 = n → arg < n →
            m.1 !! arg = Some false →
            (∃ found m', _dfs_cycle fuel af arg m = Ok (found, m'))
            ∨ _dfs_cycle fuel af arg m = OutOfFuel) →
  start < n →
  ∀ l m, Forall (λ j, j < n) l → length m.1 = n → length m.2 = n →
         (∃ found m', dfs_loop (_dfs_cycle fuel af) start l m = Ok (found, m'))
         ∨ dfs_loop (_dfs_cycle fuel af) start l m = OutOfFuel.
Proof.
  intros IHf Hstart l. induction l as [|arg rest IHl];
    intros [V S] Hl HlenV HlenS; cbn [fst snd] in *.
  - left. cbn. unfold list_set. cbn [fst snd]. rewrite decide_True by lia.
    by eexists _, _.
  - apply Forall_cons in Hl as [Harg Hrest].
    cbn [dfs_loop]. unfold list_get. cbn [fst snd].
    destruct (lookup_lt_is_Some_2 V arg) as [v Hv]; [lia|].
    rewrite Hv. cbn. destruct v; cbn.
    + destruct (lookup_lt_is_Some_2 S arg) as [s Hs]; [lia|].
      rewrite Hs. cbn. destruct s; [left; by eexists _, _|]. by apply IHl.
    + destruct (IHf arg (V, S)) as [(f1 & [V1 S1] & Hcall)|Hcall]; try done.
      * rewrite Hcall. cbn. destruct f1; [left; by eexists _, _|].
        destruct (dfs_cycle_frame fuel af arg (V, S) false (V1, S1) Hv Hcall)
          as (HlenV1 & HlenS1 & _). cbn [fst snd] in *.
        apply IHl; cbn [fst snd]; [done|lia|lia].
      * rewrite Hcall. by right.
Qed.

Lemma dfs_cycle_no_raise fuel start m :
  length m.1 = n → length m.2 = n → start < n → m.1 !! start = Some false →
  (∃ found m', _dfs_cycle fuel af start m = Ok (found, m'))
  ∨ _dfs_cycle fuel af start m = OutOfFuel.
Proof.
  revert start m. induction fuel as [|fuel IH];
    intros start [V S] HlenV HlenS Hstart HV; cbn [fst snd] in *; [by right|].
  rewrite dfs_cycle_unfold. unfold list_set. cbn [fst snd].
  rewrite !decide_True by lia. cbn.
  destruct (Hg start Hstart) as (succs & Hsuccs & Hall).
  unfold dict_get. rewrite Hsuccs. cbn.
  apply (dfs_loop_no_raise fuel start IH Hstart); cbn [fst snd];
    [done|by rewrite length_insert..].
Qed.

Lemma circularity_loop_no_raise fuel nodes m score :
  Forall (λ j, j < n) nodes → length m.1 = n → length m.2 = n →
  (∃ score', circularity_loop fuel af nodes m score = Ok score')
  ∨ circularity_loop fuel af nodes m score = OutOfFuel.
Proof.
  revert m score. induction nodes as [|node rest IH];
    intros [V S] score Hnodes HlenV HlenS; cbn [fst snd] in *.
  - left. by eexists.
  - apply Forall_cons in Hnodes as [Hnode Hrest].
    cbn [circularity_loop]. unfold list_get. cbn [fst snd].
    destruct (lookup_lt_is_Some_2 V node) as [v Hv]; [lia|].
    rewrite Hv. cbn. destruct v; cbn; [by apply IH|].
    destruct (dfs_cycle_no_raise fuel node (V, S))
      as [(found & [V' S'] & Hcall)|Hcall]; try done.
    + rewrite Hcall. cbn.
      destruct (dfs_cycle_frame fuel af node (V, S) found (V', S') Hv Hcall)
        as (HlenV' & HlenS' & _). cbn [fst snd] in *.
      apply IH; cbn [fst snd]; [done|lia|lia].
    + rewrite Hcall. by right.
Qed.

End NoRaise.

Lemma compute_circularity_depth_framework depth args att sup :
  compute_circularity_depth depth args att sup
  = af ← framework args att sup;
    score ← circularity_loop depth af (seq 0 (length args))
               (replicate (length args) false, replicate (length args) false) 0;
    truediv score (length args).
Proof.
  unfold compute_circularity_depth, framework. unbind.
  by destruct (add_edges args _ att).
Qed.

Lemma compute_circularity_depth_enough depth args att sup :
  length args ≤ depth →
  compute_circularity_depth depth args att sup = compute_circularity args att sup.
Proof.
  intros Hle.
  rewrite compute_circularity_depth_framework, compute_circularity_framework.
  destruct (decide (wf_edges args (att ++ sup))) as [Hwf|Hbad];
    [|by rewrite framework_bad].
  destruct args as [|a args].
  { destruct (framework [] att sup); done. }
  destruct (circularity_roots (a :: args) att sup)
    as (af & roots & Haf & _ & Hroots & _ & _); [done..|].
  rewrite Haf. unfold mbind, outcome_bind, bind.
  destruct (circularity_loop (length (a :: args)) af (seq 0 (length (a :: args)))
              (replicate (length (a :: args)) false,
               replicate (length (a :: args)) false) 0) as [score| |] eqn:E.
  - by rewrite (circularity_loop_fuel_mono _ _ _ _ _ _ _ Hle E).
  - rewrite circularity_loop_roots, Hroots in E. done.
  - rewrite circularity_loop_roots, Hroots in E. done.
Qed.

Lemma circularity_depth_cases depth args att sup :
  (¬ wf_edges args (att ++ sup)
   ∧ compute_circularity_depth depth args att sup = Raise ValueError)
  ∨ (wf_edges args (att ++ sup) ∧ args = []
     ∧ compute_circularity_depth depth args att sup = Raise ZeroDivisionError)
  ∨ (wf_edges args (att ++ sup) ∧ args ≠ []
     ∧ ((∃ q, compute_circularity_depth depth args att sup = Ok q)
        ∨ compute_circularity_depth depth args att sup = OutOfFuel)).
Proof.
  rewrite compute_circularity_depth_framework.
  destruct (decide (wf_edges args (att ++ sup))) as [Hwf|Hbad];
    [|left; by rewrite framework_bad].
  right. destruct (framework_Ok _ _ _ Hwf) as (af & Haf & _ & Hl).
  pose proof (framework_wf_graph _ _ _ Hwf Hl) as Hg.
  rewrite Haf. unfold mbind, outcome_bind, bind.
  destruct args as [|a args]; [by left|]. right.
  split; [done|]. split; [done|].
  destruct (circularity_loop_no_raise af (length (a :: args)) Hg depth
              (seq 0 (length (a :: args)))
              (replicate (length (a :: args)) false,
               replicate (length (a :: args)) false) 0)
    as [[score Hloop]|Hloop].
  - apply Forall_forall. intros j Hj%elem_of_seq. lia.
  - cbn [fst]. by rewrite length_replicate.
  - cbn [snd]. by rewrite length_replicate.
  - left. rewrite Hloop. by eexists.
  - right. by rewrite Hloop.
Qed.

(** X1.  Whatever depth of recursion the interpreter allows the traversal,
    [compute_circularity] raises [ValueError] exactly when a member of an
    attack or support pair is not in [args], raises [ZeroDivisionError]
    exactly when [args] and both lists of pairs are empty, and never raises
    [KeyError] or [IndexError]: the subscripts of the dictionary and of the
    two marker lists are always in range.  The depth can only be exceeded
    ([RecursionError]) when it is smaller than [len(args)]; from
    [len(args)] on, the outcome does not depend on it. *)
Theorem circularity_outcome depth args att sup :
  (compute_circularity_depth depth args att sup = Raise ValueError
   ↔ ¬ wf_edges args (att ++ sup))
  ∧ (compute_circularity_depth depth args att sup = Raise ZeroDivisionError
     ↔ args = [] ∧ att = [] ∧ sup = [])
  ∧ compute_circularity_depth depth args att sup ≠ Raise KeyError
  ∧ compute_circularity_depth depth args att sup ≠ Raise IndexError
  ∧ (compute_circularity_depth depth args att sup = OutOfFuel →
     depth < length args)
  ∧ (length args ≤ depth →
     compute_circularity_depth depth args att sup
     = compute_circularity_depth (length args) args att sup).
Proof.
  assert (length args ≤ depth →
          compute_circularity_depth depth args att sup
          = compute_circularity_depth (length args) args att sup) as Hdepth.
  { intros Hle. by rewrite !compute_circularity_depth_enough. }
  assert (compute_circularity_depth depth args att sup = OutOfFuel →
          depth < length args) as Hfuel.
  { intros Hout. destruct (decide (depth < length args)); [done|].
    rewrite compute_circularity_depth_enough in Hout by lia.
    by destruct (compute_circularity_total args att sup). }
  assert (wf_edges args (att ++ sup) → args = [] → att = [] ∧ sup = [])
    as Hempty.
  { intros Hwf ->. apply app_eq_nil.
    destruct (att ++ sup) as [|p l]; [done|].
    destruct (Hwf p) as [H _]; [left|]. by apply elem_of_nil in H. }
  destruct (circularity_depth_cases depth args att sup)
    as [[Hbad Hrun]|[(Hwf & Hnil & Hrun)|(Hwf & Hne & [[q Hrun]|Hrun])]];
    rewrite Hrun in *.
  - split; [done|]. split; [|done]. split; [done|].
    intros (-> & -> & ->). destruct Hbad. by intros p ?%elem_of_nil.
  - destruct (Hempty Hwf Hnil) as [Hatt Hsup]. split; [|done].
    split; [done|]. intros Hbad. by destruct Hbad.
  - split; [|split; [|done]].
    + split; [done|]. intros H. by destruct H.
    + split; [done|]. by intros [? _].
  - split; [|split; [|done]].
    + split; [done|]. intros H. by destruct H.
    + split; [done|]. by intros [? _].
Qed.

Lemma circularity_outcome_witness :
  compute_circularity_depth 1 ["A"; "B"; "C"] [("A", "B"); ("B", "C")] []
  = OutOfFuel
  ∧ 1 < length ["A"; "B"; "C"]
  ∧ compute_circularity_depth 9 ["A"; "B"; "C"] [("A", "B"); ("B", "C")] []
    = compute_circularity_depth (length ["A"; "B"; "C"]) ["A"; "B"; "C"]
        [("A", "B"); ("B", "C")] []
  ∧ compute_circularity_depth 1 ["A"] [("A", "Z")] [] = Raise ValueError.
Proof.
  assert (compute_circularity_depth 1 ["A"; "B"; "C"] [("A", "B"); ("B", "C")] []
          = OutOfFuel) as Hout by reflexivity.
  split; [done|]. split; [|split].
  - apply (proj1 (proj2 (proj2 (proj2 (proj2
             (circularity_outcome 1 ["A"; "B"; "C"] [("A", "B"); ("B", "C")] [])))))).
    exact Hout.
  - apply (proj2 (proj2 (proj2 (proj2 (proj2
             (circularity_outcome 9 ["A"; "B"; "C"] [("A", "B"); ("B", "C")] [])))))).
    cbn. lia.
  - apply (proj1 (circularity_outcome 1 ["A"] [("A", "Z")] [])).
    intros Hwf. destruct (Hwf ("A", "Z")) as [_ H]; [left|].
    apply list_elem_of_In in H. cbn in H. intuition congruence.
Defined.
